(** * YouPS execution-log pages: a shallow embedding of the two front-end scripts

    Sources embedded here:
    - [src/http_handler/static/javascript/youps/history_table.js]
      ([append_log], [fetch_log]: the history view, polled every 2 seconds);
    - [src/http_handler/static/javascript/murmur/login_imap.js]
      ([fetch_log], [append_log]: the editor view, polled every 5 seconds;
      [validateEmail], [toggle_login_mode], [guess_host]: the login form;
      [set_running], [get_running], [spinStatusCog], [show_loader], the
      callback of [run_code] and the handlers of the submit button, of the
      new-tab link and of a tab's close mark; the completion helper
      [dictionaryHint]).

    The scripts run in a browser.  What the browser, jQuery and the DataTables
    widget do is not part of the repository; the parts the scripts rely on are
    modelled in the modules [JS], [JSON], [Regex] and [Table] below, each with the
    behaviour it stands for written next to it.  Strings are sequences of code
    units below 256, which covers the timestamps and field names of the log. *)

From Stdlib Require Import Ascii String ZArith Lia Bool.
From stdpp Require Import base list strings.

Local Open Scope string_scope.
Set Warnings "-register-all,-clear-no-such-hyp".

(** ** JavaScript values *)

Module JS.

(** The values [JSON.parse] can produce, plus [undefined].  A number keeps its
    source text; an object keeps its own properties in creation order, each
    key once. *)
Inductive value : Type :=
  | VUndefined
  | VNull
  | VBool (b : bool)
  | VNum (lexeme : string)
  | VStr (s : string)
  | VArr (items : list value)
  | VObj (props : list (string * value)).

Inductive error : Type :=
  | SyntaxError
  | TypeError.

(** *** Characters and decimal numerals *)

Definition is_digit (c : ascii) : bool :=
  (48 <=? nat_of_ascii c)%nat && (nat_of_ascii c <=? 57)%nat.

Definition digit_val (c : ascii) : N := N.of_nat (nat_of_ascii c - 48).

Fixpoint chars (s : string) : list ascii :=
  match s with
  | EmptyString => []
  | String c s' => c :: chars s'
  end.

Fixpoint unchars (l : list ascii) : string :=
  match l with
  | [] => EmptyString
  | c :: l' => String c (unchars l')
  end.

Definition decimal_value (s : string) : N :=
  fold_left (fun acc c => (10 * acc + digit_val c)%N) (chars s) 0%N.

Fixpoint nat_digits (fuel n : nat) (acc : string) : string :=
  match fuel with
  | O => acc
  | S fuel' =>
      let acc' := String (ascii_of_nat (48 + n mod 10)) acc in
      if (n <? 10)%nat then acc' else nat_digits fuel' (n / 10) acc'
  end.

(** [String(n)] for a non-negative integer. *)
Definition string_of_nat (n : nat) : string := nat_digits (S n) n "".

(** A canonical array index: the decimal numeral of an integer below
    [2^32 - 1], without leading zeros.  Own keys of this shape enumerate first,
    in numeric order. *)
Definition is_array_index (k : string) : bool :=
  match chars k with
  | [] => false
  | c :: rest =>
      forallb is_digit (c :: rest)
      && (negb (Ascii.eqb c "0"%char) || match rest with [] => true | _ => false end)
      && (String.length k <=? 10)%nat
      && (decimal_value k <? 4294967295)%N
  end.

(** *** Own properties *)

Fixpoint lookup_prop (k : string) (props : list (string * value)) : option value :=
  match props with
  | [] => None
  | (k', v) :: rest => if String.eqb k k' then Some v else lookup_prop k rest
  end.

(** [o[k] = v] as a data property: an existing key keeps its place. *)
Fixpoint define_prop (k : string) (v : value) (props : list (string * value))
  : list (string * value) :=
  match props with
  | [] => [(k, v)]
  | (k', v') :: rest =>
      if String.eqb k k' then (k, v) :: rest else (k', v') :: define_prop k v rest
  end.

(** [delete o[k]]. *)
Fixpoint delete_prop (k : string) (props : list (string * value))
  : list (string * value) :=
  match props with
  | [] => []
  | (k', v') :: rest =>
      if String.eqb k k' then delete_prop k rest else (k', v') :: delete_prop k rest
  end.

Fixpoint insert_index (k : string) (l : list string) : list string :=
  match l with
  | [] => [k]
  | k' :: rest =>
      if (decimal_value k <=? decimal_value k')%N then k :: l
      else k' :: insert_index k rest
  end.

Fixpoint dedup_keys (l : list string) : list string :=
  match l with
  | [] => []
  | k :: rest => k :: filter (fun k' => k' <> k) (dedup_keys rest)
  end.

(** Enumeration order of own string keys: array indices ascending, then the
    other keys in creation order. *)
Definition ordered_keys (ks : list string) : list string :=
  let ks := dedup_keys ks in
  fold_right insert_index [] (filter (fun k => is_array_index k) ks)
  ++ filter (fun k => ~ is_array_index k) ks.

Definition index_keys (n : nat) : list string := map string_of_nat (seq 0 n).

(** [Object.keys(v)]: throws on [null] and [undefined]; a string or an array
    has its indices as keys; numbers and booleans have none. *)
Definition Object_keys (v : value) : error + list string :=
  match v with
  | VUndefined | VNull => inl TypeError
  | VBool _ | VNum _ => inr []
  | VStr s => inr (index_keys (String.length s))
  | VArr items => inr (index_keys (length items))
  | VObj props => inr (ordered_keys (map fst props))
  end.

(** [v[k]] for a key the scripts use: an own property, or [undefined].  None of
    the keys read by the scripts is inherited from a prototype.  Throws on
    [null] and [undefined]. *)
Definition get (v : value) (k : string) : error + value :=
  match v with
  | VUndefined | VNull => inl TypeError
  | VBool _ | VNum _ => inr VUndefined
  | VStr s =>
      if is_array_index k then
        match List.nth_error (chars s) (N.to_nat (decimal_value k)) with
        | Some c => inr (VStr (String c ""))
        | None => inr VUndefined
        end
      else inr VUndefined
  | VArr items =>
      if is_array_index k then
        inr (List.nth (N.to_nat (decimal_value k)) items VUndefined)
      else inr VUndefined
  | VObj props =>
      inr (match lookup_prop k props with Some x => x | None => VUndefined end)
  end.

(** [delete v[k]] for a key that is not an array index: only an object has
    such an own property to remove. *)
Definition delete (v : value) (k : string) : value :=
  match v with
  | VObj props => VObj (delete_prop k props)
  | _ => v
  end.

(** *** Conversions *)

Definition zero_lexeme (lexeme : string) : bool :=
  let mantissa :=
    (fix go (l : list ascii) : list ascii :=
       match l with
       | [] => []
       | c :: rest =>
           if Ascii.eqb c "e"%char || Ascii.eqb c "E"%char then [] else c :: go rest
       end) (chars lexeme) in
  forallb (fun c => negb (is_digit c) || Ascii.eqb c "0"%char) mantissa.

(** ToBoolean. *)
Definition truthy (v : value) : bool :=
  match v with
  | VUndefined | VNull => false
  | VBool b => b
  | VNum lexeme => negb (zero_lexeme lexeme)
  | VStr s => negb (String.eqb s "")
  | VArr _ | VObj _ => true
  end.

Fixpoint join (sep : string) (l : list string) : string :=
  match l with
  | [] => ""
  | [s] => s
  | s :: rest => s ++ sep ++ join sep rest
  end.

(** ToString.  A number prints as its source text. *)
Fixpoint to_string (v : value) : string :=
  match v with
  | VUndefined => "undefined"
  | VNull => "null"
  | VBool true => "true"
  | VBool false => "false"
  | VNum lexeme => lexeme
  | VStr s => s
  | VArr items =>
      join "," (map (fun x => match x with
                              | VUndefined | VNull => ""
                              | _ => to_string x
                              end) items)
  | VObj _ => "[object Object]"
  end.

(** [a || b]. *)
Definition or_else (a b : value) : value := if truthy a then a else b.

End JS.

(** ** [JSON.parse] *)

Module JSON.
Import JS.

Definition dquote : ascii := ascii_of_nat 34.
Definition backslash : ascii := ascii_of_nat 92.

(** Examples write a payload with ['] where the wire has the double quote. *)
Definition dq (s : string) : string :=
  unchars (map (fun c => if Ascii.eqb c "'"%char then dquote else c) (chars s)).

Definition is_ws (c : ascii) : bool :=
  match nat_of_ascii c with
  | 9 | 10 | 13 | 32 => true
  | _ => false
  end.

Fixpoint skip_ws (l : list ascii) : list ascii :=
  match l with
  | c :: rest => if is_ws c then skip_ws rest else l
  | [] => []
  end.

Fixpoint span_digits (l : list ascii) : list ascii * list ascii :=
  match l with
  | c :: rest =>
      if is_digit c then let '(ds, r) := span_digits rest in (c :: ds, r)
      else ([], l)
  | [] => ([], [])
  end.

Definition hex_val (c : ascii) : option N :=
  let n := nat_of_ascii c in
  if (48 <=? n)%nat && (n <=? 57)%nat then Some (N.of_nat (n - 48))
  else if (65 <=? n)%nat && (n <=? 70)%nat then Some (N.of_nat (n - 55))
  else if (97 <=? n)%nat && (n <=? 102)%nat then Some (N.of_nat (n - 87))
  else None.

Definition simple_escape (c : ascii) : option ascii :=
  if Ascii.eqb c dquote then Some dquote
  else if Ascii.eqb c backslash then Some backslash
  else match c with
       | "/"%char => Some "/"%char
       | "b"%char => Some (ascii_of_nat 8)
       | "f"%char => Some (ascii_of_nat 12)
       | "n"%char => Some (ascii_of_nat 10)
       | "r"%char => Some (ascii_of_nat 13)
       | "t"%char => Some (ascii_of_nat 9)
       | _ => None
       end.

(** The characters of a string literal after its opening quote.  A [\uXXXX]
    escape yields the code unit's low byte. *)
Fixpoint parse_string_body (l acc : list ascii) : option (string * list ascii) :=
  match l with
  | [] => None
  | c :: rest =>
      if Ascii.eqb c dquote then Some (unchars (rev acc), rest)
      else if Ascii.eqb c backslash then
        match rest with
        | [] => None
        | e :: rest1 =>
            match simple_escape e with
            | Some x => parse_string_body rest1 (x :: acc)
            | None =>
                if Ascii.eqb e "u"%char then
                  match rest1 with
                  | h1 :: h2 :: h3 :: h4 :: rest2 =>
                      match hex_val h1, hex_val h2, hex_val h3, hex_val h4 with
                      | Some _, Some _, Some a, Some b =>
                          parse_string_body rest2 (ascii_of_N (16 * a + b) :: acc)
                      | _, _, _, _ => None
                      end
                  | _ => None
                  end
                else None
            end
        end
      else if (nat_of_ascii c <? 32)%nat then None
      else parse_string_body rest (c :: acc)
  end.

(** The grammar of a number, part by part: sign, integer part, fraction,
    exponent.  Each part returns its characters and the rest of the text. *)
Definition number_sign (l : list ascii) : list ascii * list ascii :=
  match l with
  | c :: r => if Ascii.eqb c "-"%char then ([c], r) else ([], l)
  | [] => ([], l)
  end.

Definition nonempty_digits (l : list ascii) : option (list ascii * list ascii) :=
  match span_digits l with
  | ([], _) => None
  | (ds, r) => Some (ds, r)
  end.

Definition number_int (l : list ascii) : option (list ascii * list ascii) :=
  match l with
  | c :: r => if Ascii.eqb c "0"%char then Some ([c], r) else nonempty_digits l
  | [] => None
  end.

Definition number_frac (l : list ascii) : option (list ascii * list ascii) :=
  match l with
  | c :: r =>
      if Ascii.eqb c "."%char then
        match nonempty_digits r with
        | Some (ds, r') => Some (c :: ds, r')
        | None => None
        end
      else Some ([], l)
  | [] => Some ([], l)
  end.

Definition exponent_sign (l : list ascii) : list ascii * list ascii :=
  match l with
  | c :: r =>
      if Ascii.eqb c "+"%char || Ascii.eqb c "-"%char then ([c], r) else ([], l)
  | [] => ([], l)
  end.

Definition number_exp (l : list ascii) : option (list ascii * list ascii) :=
  match l with
  | c :: r =>
      if Ascii.eqb c "e"%char || Ascii.eqb c "E"%char then
        let '(sg, r1) := exponent_sign r in
        match nonempty_digits r1 with
        | Some (ds, r2) => Some (c :: sg ++ ds, r2)
        | None => None
        end
      else Some ([], l)
  | [] => Some ([], l)
  end.

Definition parse_number (l : list ascii) : option (string * list ascii) :=
  let '(sign, l1) := number_sign l in
  match number_int l1 with
  | None => None
  | Some (ip, l2) =>
      match number_frac l2 with
      | None => None
      | Some (fp, l3) =>
          match number_exp l3 with
          | None => None
          | Some (ep, l4) => Some (unchars (sign ++ ip ++ fp ++ ep), l4)
          end
      end
  end.

Fixpoint strip_prefix (p l : list ascii) : option (list ascii) :=
  match p, l with
  | [], _ => Some l
  | a :: p', b :: l' => if Ascii.eqb a b then strip_prefix p' l' else None
  | _ :: _, [] => None
  end.

(** The text after the character [c], white space before it skipped. *)
Definition closed_by (c : ascii) (l : list ascii) : option (list ascii) :=
  match skip_ws l with
  | d :: rest => if Ascii.eqb d c then Some rest else None
  | [] => None
  end.

(** Recursive descent over the text.  A value that takes [n] characters is
    parsed with any fuel from [n] on ([JSONFacts.parse_value_fuel]), so the
    fuel [parse] gives, the text's length plus one, is never exhausted. *)
Fixpoint parse_value (fuel : nat) (l : list ascii) : option (value * list ascii) :=
  match fuel with
  | O => None
  | S fuel' =>
      match skip_ws l with
      | [] => None
      | c :: rest =>
          if Ascii.eqb c "{"%char then
            match closed_by "}"%char rest with
            | Some rest' => Some (VObj [], rest')
            | None => parse_members fuel' rest []
            end
          else if Ascii.eqb c "["%char then
            match closed_by "]"%char rest with
            | Some rest' => Some (VArr [], rest')
            | None => parse_elements fuel' rest []
            end
          else if Ascii.eqb c dquote then
            match parse_string_body rest [] with
            | Some (s, rest') => Some (VStr s, rest')
            | None => None
            end
          else if Ascii.eqb c "t"%char then
            option_map (fun r => (VBool true, r)) (strip_prefix (chars "rue") rest)
          else if Ascii.eqb c "f"%char then
            option_map (fun r => (VBool false, r)) (strip_prefix (chars "alse") rest)
          else if Ascii.eqb c "n"%char then
            option_map (fun r => (VNull, r)) (strip_prefix (chars "ull") rest)
          else
            match parse_number (c :: rest) with
            | Some (lexeme, rest') => Some (VNum lexeme, rest')
            | None => None
            end
      end
  end
with parse_members (fuel : nat) (l : list ascii) (acc : list (string * value))
  : option (value * list ascii) :=
  match fuel with
  | O => None
  | S fuel' =>
      match skip_ws l with
      | c :: rest =>
          if Ascii.eqb c dquote then
            match parse_string_body rest [] with
            | Some (k, rest1) =>
                match closed_by ":"%char rest1 with
                | Some rest2 =>
                    match parse_value fuel' rest2 with
                    | Some (v, rest3) =>
                        let acc' := define_prop k v acc in
                        match skip_ws rest3 with
                        | d :: rest4 =>
                            if Ascii.eqb d ","%char then parse_members fuel' rest4 acc'
                            else if Ascii.eqb d "}"%char then Some (VObj acc', rest4)
                            else None
                        | [] => None
                        end
                    | None => None
                    end
                | None => None
                end
            | None => None
            end
          else None
      | [] => None
      end
  end
with parse_elements (fuel : nat) (l : list ascii) (acc : list value)
  : option (value * list ascii) :=
  match fuel with
  | O => None
  | S fuel' =>
      match parse_value fuel' l with
      | Some (v, rest) =>
          match skip_ws rest with
          | d :: rest' =>
              if Ascii.eqb d ","%char then parse_elements fuel' rest' (acc ++ [v])
              else if Ascii.eqb d "]"%char then Some (VArr (acc ++ [v]), rest')
              else None
          | [] => None
          end
      | None => None
      end
  end.

(** [JSON.parse(text)]: the value, or a [SyntaxError]. *)
Definition parse (text : string) : error + value :=
  match parse_value (S (String.length text)) (chars text) with
  | Some (v, rest) =>
      match skip_ws rest with
      | [] => inr v
      | _ :: _ => inl SyntaxError
      end
  | None => inl SyntaxError
  end.

(** A parse that takes [n] characters succeeds with any fuel from [n] on. *)
Definition settled {A : Type} (p : nat -> list ascii -> option (A * list ascii))
    (fuel : nat) : Prop :=
  forall l v r, p fuel l = Some (v, r) ->
    (length r < length l) /\
    (forall fuel', length l - length r <= fuel' -> p fuel' l = Some (v, r)).

End JSON.

(** ** Strings and arrays of strings *)

Module Str.
Import JS.

(** [s.split(",")[0]]: the text before the first comma. *)
Fixpoint before_comma (s : string) : string :=
  match s with
  | EmptyString => ""
  | String c s' => if Ascii.eqb c ","%char then "" else String c (before_comma s')
  end.

(** [s.replace(/[ /:,]/g, '')]. *)
Fixpoint strip_separators (s : string) : string :=
  match s with
  | EmptyString => ""
  | String c s' =>
      if Ascii.eqb c " "%char || Ascii.eqb c "/"%char
         || Ascii.eqb c ":"%char || Ascii.eqb c ","%char
      then strip_separators s'
      else String c (strip_separators s')
  end.

Definition is_space (c : ascii) : bool :=
  match nat_of_ascii c with
  | 9 | 10 | 11 | 12 | 13 | 32 | 160 => true
  | _ => false
  end.

(** [$.trim(s) != ""]. *)
Definition nonblank (s : string) : bool := negb (forallb is_space (chars s)).

Fixpoint format_chars (t : list ascii) (args : list value) : list ascii :=
  match t with
  | [] => []
  | c :: rest =>
      let keep := c :: format_chars rest args in
      match c, rest with
      | "{"%char, d :: "}"%char :: rest' =>
          if is_digit d then
            match List.nth_error args (nat_of_ascii d - 48) with
            | Some a => chars (to_string a) ++ format_chars rest' args
            | None => keep
            end
          else keep
      | _, _ => keep
      end
  end.

(** Modelled from the spec: [String.prototype.format], which the scripts call
    but do not define.  Each [{i}] of the template is replaced with the text of
    the i-th argument, and an absent value reads [undefined]. *)
Definition format (template : string) (args : list value) : string :=
  unchars (format_chars (chars template) args).

(** [a > b] on strings: code units compared in turn. *)
Definition gt (a b : string) : bool := String.ltb b a.

Fixpoint insert_sorted (k : string) (l : list string) : list string :=
  match l with
  | [] => [k]
  | k' :: rest => if String.leb k k' then k :: l else k' :: insert_sorted k rest
  end.

(** [keys.sort()] with no comparison function: ascending by code units. *)
Definition sort_default (l : list string) : list string :=
  fold_right insert_sorted [] l.

(** [l.slice(-n)]: the last [n] elements, or all of them. *)
Definition slice_last {A} (n : nat) (l : list A) : list A :=
  drop (length l - n) l.

(** jQuery's [$(a).not(b).get()] on arrays of strings: the elements of [a], in
    order, that do not occur in [b]. *)
Definition not_in (a b : list string) : list string :=
  filter (fun k => k ∉ b) a.

End Str.

(** ** [Array.prototype.sort] with a comparison function

    The language leaves the result open when the comparison function is not a
    consistent comparator, so the poller takes the engine's sort as a
    parameter.  Two engines are written out for evaluation. *)

Module Engine.

(** V8 since version 7.0 (TimSort).  [count_run] is its [CountAndMakeRun]: the
    first run is descending when the second element compares below the first
    ([order < 0]); the run is extended while that stays so, or, for an
    ascending run, while no element compares below its predecessor. *)
Fixpoint extend_run (cmp : string -> string -> Z) (descending : bool)
    (prev : string) (l : list string) : list string * list string :=
  match l with
  | [] => ([], [])
  | x :: rest =>
      let order := cmp x prev in
      if (if descending then (0 <=? order)%Z else (order <? 0)%Z) then ([], l)
      else let '(run, tl) := extend_run cmp descending x rest in (x :: run, tl)
  end.

Definition count_run (cmp : string -> string -> Z) (l : list string)
  : list string * list string :=
  match l with
  | a :: b :: rest =>
      let descending := (cmp b a <? 0)%Z in
      let '(run, tl) := extend_run cmp descending b rest in
      let whole := a :: b :: run in
      (if descending then rev whole else whole, tl)
  | _ => (l, [])
  end.

(** [BinaryInsertionSort]'s search: [order < 0] moves the right end, anything
    else the left end. *)
Fixpoint bsearch (cmp : string -> string -> Z) (pivot : string)
    (sorted : list string) (fuel left right : nat) : nat :=
  match fuel with
  | O => left
  | S fuel' =>
      if (left <? right)%nat then
        let mid := (left + (right - left) / 2)%nat in
        match List.nth_error sorted mid with
        | Some x =>
            if (cmp pivot x <? 0)%Z then bsearch cmp pivot sorted fuel' left mid
            else bsearch cmp pivot sorted fuel' (S mid) right
        | None => left
        end
      else left
  end.

Definition binary_insert (cmp : string -> string -> Z) (sorted : list string)
    (pivot : string) : list string :=
  let i := bsearch cmp pivot sorted (S (length sorted)) 0 (length sorted) in
  take i sorted ++ pivot :: drop i sorted.

(** The first run, then binary insertion of what follows it.  This is the
    whole algorithm for arrays shorter than 64; for longer ones V8 merges
    further runs, with the same result whenever the array is a single run. *)
Definition timsort (cmp : string -> string -> Z) (l : list string) : list string :=
  let '(run, tl) := count_run cmp l in
  fold_left (binary_insert cmp) tl run.

(** An insertion sort that moves an element left past those that compare
    above it ([order > 0]), as V8 did before 7.0 for short arrays. *)
Fixpoint insert_gt (cmp : string -> string -> Z) (x : string)
    (rsorted : list string) : list string :=
  match rsorted with
  | [] => [x]
  | y :: rest =>
      if (0 <? cmp y x)%Z then y :: insert_gt cmp x rest else x :: rsorted
  end.

(** [rsorted] holds the sorted prefix, last element first. *)
Definition insertion_sort (cmp : string -> string -> Z) (l : list string)
  : list string :=
  rev (fold_left (fun rsorted x => insert_gt cmp x rsorted) l []).

End Engine.

(** ** The history view: [youps/history_table.js] *)

Module History.
Import JS Str.

(** Entries of a decoded log are objects that [append_log] changes in place
    (it deletes fields), and the same entry is reachable from the decoded
    snapshot, from the batch handed to [append_log] and from the snapshot the
    load-more handler captured.  So entries live in a heap, and a snapshot or a
    batch maps each of its keys to a location. *)
Definition loc := nat.
Definition entries := list (string * loc).

(** A row of the table: the five cells, and the timestamp it was built from
    (the cells keep only the date and a lossy panel id). *)
Record row := Row { row_key : string; row_cells : list string }.

(** The three callbacks of the file. *)
Inductive handler : Type :=
  | Success_callback
  | Failure_callback
  | Click_handler.

Inductive effect : Type :=
  | Post (url : string)
  | Parsed (text : string)
  | Diffed (new_keys : list string)
  | Row_added (r : row)
  | Jsonpanel (selector : string) (data : value)
  | Set_text (selector : string) (text : string)
  | Ordered (column : nat) (direction : string)
  | Load_more_shown
  | Load_more_hidden
  | Set_running (running : bool)
  | Status_shown (msg : string)
  | Notified (ok : bool)
  | Alerted (msg : string)
  | Timeout_set (ms : nat)
  | Uncaught (from : handler) (e : error).

(** What the click handler of line 91 closes over. *)
Record closure := Closure { initial_msg_log : entries; recent_keys : list string }.

Record response := Response
  { status : bool; imap_log : string; user_status_msg : string }.

(** The page: the two globals of line 2, the heap of entries, the table's rows
    in insertion order, the load-more button with its click handlers, the
    requests in flight and the pending timers, and everything done so far that
    the user or the server can observe.  The globals [msg_log], [old_log],
    [Message] and [_message_data] are assigned before they are read on every
    path, so they are locals here. *)
Record world := World
  { log_backup : string;
    user_status_backup : string;
    heap : list value;
    table : list row;
    load_more_visible : bool;
    load_more_handlers : list closure;
    requests : nat;
    timers : nat;
    effects : list effect }.

Definition page_loaded : world := World "" "" [] [] false [] 0 0 [].

Definition set_log_backup (s : string) (w : world) : world :=
  World s (user_status_backup w) (heap w) (table w) (load_more_visible w)
        (load_more_handlers w) (requests w) (timers w) (effects w).
Definition set_user_status_backup (s : string) (w : world) : world :=
  World (log_backup w) s (heap w) (table w) (load_more_visible w)
        (load_more_handlers w) (requests w) (timers w) (effects w).
Definition set_heap (h : list value) (w : world) : world :=
  World (log_backup w) (user_status_backup w) h (table w) (load_more_visible w)
        (load_more_handlers w) (requests w) (timers w) (effects w).
Definition set_table (t : list row) (w : world) : world :=
  World (log_backup w) (user_status_backup w) (heap w) t (load_more_visible w)
        (load_more_handlers w) (requests w) (timers w) (effects w).
Definition set_load_more_visible (b : bool) (w : world) : world :=
  World (log_backup w) (user_status_backup w) (heap w) (table w) b
        (load_more_handlers w) (requests w) (timers w) (effects w).
Definition set_load_more_handlers (hs : list closure) (w : world) : world :=
  World (log_backup w) (user_status_backup w) (heap w) (table w)
        (load_more_visible w) hs (requests w) (timers w) (effects w).
Definition set_requests (n : nat) (w : world) : world :=
  World (log_backup w) (user_status_backup w) (heap w) (table w)
        (load_more_visible w) (load_more_handlers w) n (timers w) (effects w).
Definition set_timers (n : nat) (w : world) : world :=
  World (log_backup w) (user_status_backup w) (heap w) (table w)
        (load_more_visible w) (load_more_handlers w) (requests w) n (effects w).
Definition set_effects (es : list effect) (w : world) : world :=
  World (log_backup w) (user_status_backup w) (heap w) (table w)
        (load_more_visible w) (load_more_handlers w) (requests w) (timers w) es.

(** *** Statements that change the page and may throw *)

Definition M (A : Type) : Type := world -> (error + A) * world.

#[global] Instance M_ret : MRet M := fun A a w => (inr a, w).
#[global] Instance M_bind : MBind M := fun A B f m w =>
  match m w with
  | (inr a, w') => f a w'
  | (inl e, w') => (inl e, w')
  end.

Definition lift {A} (r : error + A) : M A := fun w => (r, w).
Definition gets {A} (f : world -> A) : M A := fun w => (inr (f w), w).
Definition modify (f : world -> world) : M unit := fun w => (inr tt, f w).
Definition emit (e : effect) : M unit :=
  modify (fun w => set_effects (effects w ++ [e]) w).

Fixpoint for_each {A} (f : A -> M unit) (l : list A) : M unit :=
  match l with
  | [] => mret tt
  | x :: rest => f x ;; for_each f rest
  end.

Definition alloc (v : value) : M loc :=
  fun w => (inr (length (heap w)), set_heap (heap w ++ [v]) w).
Definition read (l : loc) : M value :=
  gets (fun w => default VUndefined (heap w !! l)).
Definition write (l : loc) (v : value) : M unit :=
  modify (fun w => set_heap (<[l := v]> (heap w)) w).

Fixpoint lookup_loc (k : string) (o : entries) : option loc :=
  match o with
  | [] => None
  | (k', l) :: rest => if String.eqb k k' then Some l else lookup_loc k rest
  end.

(** [keys.reduce((o, k) => (o[k] = src[k], o), {})]: a new object sharing the
    entries of [src] under the given keys.  Lines 93 and 104 build the same
    object with a spread and a computed key.  All three pass keys taken from
    [Object.keys(src)], so the lookup succeeds; a key that [src] lacks would
    be stored with the value [undefined], which is left out here.  The
    assignment [o[k] = ...] of line 88 goes through the [__proto__] setter
    for that one key; the model treats every key as an ordinary one. *)
Definition pick (keys : list string) (src : entries) : entries :=
  omap (fun k => match lookup_loc k src with
                 | Some l => Some (k, l)
                 | None => None
                 end) keys.

(** *** [append_log], lines 4 to 69 *)

Definition internal_fields : list string :=
  ["trigger"; "error"; "log"; "timestamp"; "type"].

(** Lines 30 to 34. *)
Definition strip_internal (Message : value) : value :=
  fold_left delete internal_fields Message.

Definition own_keys (v : value) : list string :=
  match Object_keys v with
  | inr ks => ks
  | inl _ => []
  end.

Definition field (v : value) (k : string) : value :=
  match get v k with
  | inr x => x
  | inl _ => VUndefined
  end.

(** Line 45, once the four sub-fields are read. *)
Definition contact_preview (name email organization geolocation : value) : string :=
  format (JSON.dq "'{0}', ") [name] ++ format (JSON.dq "'{0}', ") [email]
  ++ format (JSON.dq "'{0}', ") [organization]
  ++ format (JSON.dq "'{0}', ") [geolocation].

(** Lines 56 to 60: the own fields of the entry, in enumeration order. *)
Definition preview_fields (Message : value) : list (string * value) :=
  map (fun key => (key, field Message key)) (own_keys Message).

(** Lines 55 to 60. *)
Definition preview_msg (Message : value) : string :=
  format (JSON.dq "{0}: '{1}', ") [VStr "subject"; field Message "subject"]
  ++ format (JSON.dq "{0}: '{1}', ") [VStr "folder"; field Message "folder"]
  ++ fold_left (fun acc kv => acc ++ format (JSON.dq "{0}: '{1}', ") [VStr kv.1; kv.2])
               (preview_fields Message) "".

(** Lines 20 to 27: the cells of the new row. *)
Definition row_of (timestamp : string) (trigger error_ log : value) : row :=
  let json_panel_id := strip_separators timestamp in
  Row timestamp
    [ before_comma timestamp;
      format (JSON.dq "<span class='label label-info'>{0}</span>")
             [or_else trigger (VStr "")];
      format (JSON.dq "<div class='jsonpanel contact' id='jsonpanel-from-{0}'></div>")
             [VStr json_panel_id];
      format (JSON.dq "<div class='jsonpanel' id='jsonpanel-{0}'></div>")
             [VStr json_panel_id];
      (if truthy error_
       then JSON.dq "<span class='label label-danger'>Error</span>" else "")
      ++ to_string log ].

(** The body of the [$.each] of line 14, for one key of the batch. *)
Definition render_entry (msg_log : entries) (timestamp : string) : M unit :=
  Message_loc ← lift (match lookup_loc timestamp msg_log with
                      | Some l => inr l
                      | None => inl TypeError
                      end);
  Message ← read Message_loc;
  let json_panel_id := strip_separators timestamp in
  trigger ← lift (get Message "trigger");
  error_ ← lift (get Message "error");
  log ← lift (get Message "log");
  let r := row_of timestamp trigger error_ log in
  modify (fun w => set_table (table w ++ [r]) w);;
  emit (Row_added r);;
  let Message := strip_internal Message in
  write Message_loc Message;;
  from_ ← lift (get Message "from_");
  emit (Jsonpanel ("#jsonpanel-from-" ++ json_panel_id) (VObj [("Contact", from_)]));;
  name ← lift (get from_ "name");
  email ← lift (get from_ "email");
  organization ← lift (get from_ "organization");
  geolocation ← lift (get from_ "geolocation");
  emit (Set_text ("#jsonpanel-from-" ++ json_panel_id ++ " .val-inner")
                 (contact_preview name email organization geolocation));;
  emit (Jsonpanel ("#jsonpanel-" ++ json_panel_id) (VObj [("Message", Message)]));;
  emit (Set_text ("#jsonpanel-" ++ json_panel_id ++ " .val-inner")
                 (preview_msg Message)).

(** [append_log(msg_log)].  The argument is an object on every call of this
    file, so the guard of line 5 never returns. *)
Definition append_log (msg_log : entries) : M unit :=
  let sorted := sort_default (ordered_keys (map fst msg_log)) in
  for_each (render_entry msg_log) sorted;;
  emit (Ordered 0 "des").

(** *** [fetch_log], lines 71 to 137 *)

(** [function(a, b) {return a>b;}]: the boolean result read as a number. *)
Definition gt_comparefn (a b : string) : Z := if gt a b then 1%Z else 0%Z.

(** [Object.keys(o)] of a snapshot or batch. *)
Definition keys_of (o : entries) : list string := ordered_keys (map fst o).

(** The entries [JSON.parse] created for the snapshot [v], one heap cell per
    key. *)
Fixpoint alloc_entries (v : value) (keys : list string) : M entries :=
  match keys with
  | [] => mret []
  | k :: rest =>
      x ← lift (get v k);
      l ← alloc x;
      o ← alloc_entries v rest;
      mret ((k, l) :: o)
  end.

(** Lines 91 to 95: the click handler. *)
Definition load_more_clicked (c : closure) : M unit :=
  let rest_key := not_in (keys_of (initial_msg_log c)) (recent_keys c) in
  append_log (pick rest_key (initial_msg_log c));;
  modify (set_load_more_visible false);;
  emit Load_more_hidden.

Section Poller.

(** The engine's [Array.prototype.sort] with a comparison function. *)
Variable sort_with : (string -> string -> Z) -> list string -> list string.

(** Lines 86 to 96: first load. *)
Definition first_load (msg_log_value : value) : M unit :=
  keys ← lift (Object_keys msg_log_value);
  let recent_keys := slice_last 10 (sort_with gt_comparefn keys) in
  msg_log ← alloc_entries msg_log_value keys;
  append_log (pick recent_keys msg_log);;
  modify (set_load_more_visible true);;
  emit Load_more_shown;;
  modify (fun w => set_load_more_handlers
                     (load_more_handlers w ++ [Closure msg_log recent_keys]) w).

(** Line 102: the keys of the new snapshot that the old one lacks. *)
Definition new_msg_key (msg_log old_log : value) : M (list string) :=
  keys ← lift (Object_keys msg_log);
  old_keys ← lift (Object_keys old_log);
  mret (not_in keys old_keys).

(** Lines 98 to 105: a later load. *)
Definition later_load (backup : string) (msg_log_value : value) : M unit :=
  old_log ← lift (JSON.parse (if String.eqb backup "" then "{}" else backup));
  keys ← lift (Object_keys msg_log_value);
  msg_log ← alloc_entries msg_log_value keys;
  new_keys ← new_msg_key msg_log_value old_log;
  emit (Diffed new_keys);;
  append_log (pick new_keys msg_log).

(** Lines 82 to 111: the log changed since the last accepted payload. *)
Definition update_log (res : response) : M unit :=
  backup ← gets log_backup;
  if negb (String.eqb backup (imap_log res)) then
    emit (Parsed (imap_log res));;
    msg_log_value ← lift (JSON.parse (imap_log res));
    if String.eqb backup "" then first_load msg_log_value
    else later_load backup msg_log_value
  else mret tt.

(** Lines 115 to 126: the running mark and the status line. *)
Definition update_status (res : response) : M unit :=
  emit (Set_running (nonblank (user_status_msg res)));;
  status_backup ← gets user_status_backup;
  (if negb (String.eqb status_backup (user_status_msg res))
   then emit (Status_shown (user_status_msg res))
   else mret tt);;
  modify (set_user_status_backup (user_status_msg res)).

(** Lines 75 to 133: the success callback of the request. *)
Definition fetch_log_done (res : response) : M unit :=
  (if status res then
     update_log res;;
     modify (set_log_backup (imap_log res));;
     update_status res
   else emit (Notified false));;
  modify (fun w => set_timers (S (timers w)) w);;
  emit (Timeout_set 2000).

(** Lines 134 to 136: the failure callback. *)
Definition fetch_log_failed : M unit :=
  emit (Alerted "Please refresh the page!").

(** Line 74: the request goes out. *)
Definition fetch_log (w : world) : world :=
  set_effects (effects w ++ [Post "/fetch_execution_log"])
              (set_requests (S (requests w)) w).

(** *** The page session *)

Inductive event : Type :=
  | Timer_fired
  | Response_arrived (res : response)
  | Request_failed
  | Load_more_click.

(** An exception leaves the handler; what it did before stays done. *)
Definition run_handler (from : handler) (m : M unit) (w : world) : world :=
  match m w with
  | (inr _, w') => w'
  | (inl e, w') => set_effects (effects w' ++ [Uncaught from e]) w'
  end.

(** One event of the page.  A timer fires only if one is pending, a request
    completes only if one is in flight, and only a visible button is
    clicked; otherwise nothing happens. *)
Definition step (w : world) (ev : event) : world :=
  match ev with
  | Timer_fired =>
      match timers w with
      | O => w
      | S n => fetch_log (set_timers n w)
      end
  | Response_arrived res =>
      match requests w with
      | O => w
      | S n => run_handler Success_callback (fetch_log_done res) (set_requests n w)
      end
  | Request_failed =>
      match requests w with
      | O => w
      | S n => run_handler Failure_callback fetch_log_failed (set_requests n w)
      end
  | Load_more_click =>
      if load_more_visible w
      then run_handler Click_handler
                       (for_each load_more_clicked (load_more_handlers w)) w
      else w
  end.

Definition run (w : world) (evs : list event) : world := fold_left step evs w.

(** The page calls [fetch_log()] once when it has loaded. *)
Definition session (evs : list event) : world := run (fetch_log page_loaded) evs.

Definition rendered (w : world) : list string := map row_key (table w).

End Poller.

End History.

(** ** The table's display order *)

Module Table.
Import History.

Definition first_cell (r : row) : string :=
  match row_cells r with
  | c :: _ => c
  | [] => ""
  end.

Section Order.

(** How the widget compares two cells of the ordering column. *)
Variable cell_compare : string -> string -> comparison.

(** Where a new row goes among the rows already shown: below every row whose
    first cell is not smaller than its own. *)
Fixpoint place (r : row) (shown : list row) : list row :=
  match shown with
  | [] => [r]
  | r' :: rest =>
      match cell_compare (first_cell r') (first_cell r) with
      | Lt => r :: shown
      | _ => r' :: place r rest
      end
  end.

(** Modelled from the spec: the table widget's [order([0, 'des']).draw()] of
    line 65, which is not among the sources.  Rows are shown by first cell,
    greatest first; rows with equal first cells stay in insertion order. *)
Definition display_with (rows : list row) : list row :=
  fold_left (fun shown r => place r shown) rows [].

End Order.

(** The spec has the widget compare the cells as strings. *)
Definition display : list row -> list row := display_with String.compare.

End Table.

(** ** Timestamps as instants *)

Module Chrono.
Import JS.

Fixpoint split_on (sep : ascii) (l : list ascii) : list (list ascii) :=
  match l with
  | [] => [[]]
  | c :: rest =>
      if Ascii.eqb c sep then [] :: split_on sep rest
      else match split_on sep rest with
           | piece :: pieces => (c :: piece) :: pieces
           | [] => [[c]]
           end
  end.

Definition number (l : list ascii) : option N :=
  match l with
  | [] => None
  | _ => if forallb is_digit l then Some (decimal_value (unchars l)) else None
  end.

(** Modelled from the spec: a timestamp key reads [M/D/YYYY, H:MM:SS AM/PM].
    The instant it names, as one number that grows with time. *)
Definition instant (timestamp : string) : option N :=
  match split_on ","%char (chars timestamp) with
  | [date; " "%char :: time] =>
      match split_on "/"%char date, split_on " "%char time with
      | [mo; d; y], [clock; half] =>
          match split_on ":"%char clock with
          | [h; mi; s] =>
              match number mo, number d, number y, number h, number mi, number s with
              | Some mo, Some d, Some y, Some h, Some mi, Some s =>
                  let h12 := (h mod 12)%N in
                  let h24 :=
                    if String.eqb (unchars half) "PM" then Some (h12 + 12)%N
                    else if String.eqb (unchars half) "AM" then Some h12
                    else None in
                  match h24 with
                  | Some h24 =>
                      Some (((((y * 16 + mo) * 32 + d) * 32 + h24) * 64 + mi) * 64 + s)%N
                  | None => None
                  end
              | _, _, _, _, _, _ => None
              end
          | _ => None
          end
      | _, _ => None
      end
  | _ => None
  end.

(** Most recent first. *)
Fixpoint newest_first (l : list string) : bool :=
  match l with
  | a :: (b :: _) as rest =>
      match instant a, instant b with
      | Some ta, Some tb => (tb <=? ta)%N && newest_first rest
      | _, _ => false
      end
  | _ => true
  end.

End Chrono.

(** ** The editor view: [murmur/login_imap.js] *)

Module Editor.
Import JS.

Inductive effect : Type :=
  | Post (url : string)
  | Console_cleared
  | Console_prepended (html : string) (class : string)
  | Notified (ok : bool)
  | Alerted (msg : string)
  | Timeout_set (ms : nat).

Record response := Response { status : bool; imap_log : string }.

(** Line 169's [log_backup], the requests in flight, the pending timers, and
    what was done so far. *)
Record world := World
  { log_backup : string;
    requests : nat;
    timers : nat;
    effects : list effect }.

Definition emit (e : effect) (w : world) : world :=
  World (log_backup w) (requests w) (timers w) (effects w ++ [e]).

Fixpoint newlines_to_br (s : string) : string :=
  match s with
  | EmptyString => ""
  | String c s' =>
      if Ascii.eqb c (ascii_of_nat 10) then "<br>" ++ newlines_to_br s'
      else String c (newlines_to_br s')
  end.

(** [append_log(log, is_error)], lines 489 to 508; [datetime] is reset to the
    empty string before use. *)
Definition append_log (log : string) (is_error : bool) (w : world) : world :=
  if String.eqb log "" then w
  else emit (Console_prepended ("<p>" ++ newlines_to_br log ++ "</p>")
                               (if is_error then "error" else "info")) w.

(** Lines 333 to 348: the success callback. *)
Definition fetch_log_done (res : response) (w : world) : world :=
  if status res then
    let w :=
      if negb (String.eqb (log_backup w) (imap_log res))
      then append_log (imap_log res) false (emit Console_cleared w)
      else w in
    World (imap_log res) (requests w) (timers w) (effects w)
  else emit (Notified false) w.

(** Lines 328 to 352: [fetch_log()] sends the request, registers the success
    callback only, and sets the next timer at once. *)
Definition fetch_log (w : world) : world :=
  let w := emit (Post "/fetch_execution_log") w in
  let w := World (log_backup w) (S (requests w)) (timers w) (effects w) in
  emit (Timeout_set 5000) (World (log_backup w) (requests w) (S (timers w)) (effects w)).

Inductive event : Type :=
  | Timer_fired
  | Response_arrived (res : response)
  | Request_failed.

Definition step (w : world) (ev : event) : world :=
  match ev with
  | Timer_fired =>
      match timers w with
      | O => w
      | S n => fetch_log (World (log_backup w) (requests w) n (effects w))
      end
  | Response_arrived res =>
      match requests w with
      | O => w
      | S n => fetch_log_done res (World (log_backup w) n (timers w) (effects w))
      end
  | Request_failed =>
      match requests w with
      | O => w
      | S n => World (log_backup w) n (timers w) (effects w)
      end
  end.

Definition run (w : world) (evs : list event) : world := fold_left step evs w.

(** Line 176: the page calls [fetch_log()] once it knows the account is
    authenticated. *)
Definition session (evs : list event) : world := run (fetch_log (World "" 0 0 [])) evs.

End Editor.

(** ** Regular expressions, as [RegExp.prototype.test] decides them *)

Module Regex.
Import JS.

(** The constructs the scripts' patterns use.  None has a back-reference or
    a look-around, so [test] on a pattern anchored at both ends asks whether
    the whole string belongs to the language of the pattern. *)
Inductive re : Type :=
  | Never
  | Empty
  | Class (p : ascii -> bool)
  | Seq (r1 r2 : re)
  | Or (r1 r2 : re)
  | Star (r : re).

(** [r+], [r{1,3}] and [r{2,}]. *)
Definition Plus (r : re) : re := Seq r (Star r).
Definition Upto3 (r : re) : re := Seq r (Or Empty (Seq r (Or Empty r))).
Definition Atleast2 (r : re) : re := Seq r (Seq r (Star r)).

Fixpoint Seqs (rs : list re) : re :=
  match rs with
  | [] => Empty
  | [r] => r
  | r :: rest => Seq r (Seqs rest)
  end.

Definition Lit (c : ascii) : re := Class (Ascii.eqb c).

(** The strings of a pattern. *)
Inductive matches : re -> list ascii -> Prop :=
  | matches_empty : matches Empty []
  | matches_class p c : p c = true -> matches (Class p) [c]
  | matches_seq r1 r2 s1 s2 :
      matches r1 s1 -> matches r2 s2 -> matches (Seq r1 r2) (s1 ++ s2)%list
  | matches_or_l r1 r2 s : matches r1 s -> matches (Or r1 r2) s
  | matches_or_r r1 r2 s : matches r2 s -> matches (Or r1 r2) s
  | matches_star_nil r : matches (Star r) []
  | matches_star_more r s1 s2 :
      matches r s1 -> matches (Star r) s2 -> matches (Star r) (s1 ++ s2)%list.

Fixpoint nullable (r : re) : bool :=
  match r with
  | Never | Class _ => false
  | Empty | Star _ => true
  | Seq r1 r2 => nullable r1 && nullable r2
  | Or r1 r2 => nullable r1 || nullable r2
  end.

(** What is left of the pattern after the character [c]. *)
Fixpoint derive (c : ascii) (r : re) : re :=
  match r with
  | Never | Empty => Never
  | Class p => if p c then Empty else Never
  | Seq r1 r2 =>
      if nullable r1 then Or (Seq (derive c r1) r2) (derive c r2)
      else Seq (derive c r1) r2
  | Or r1 r2 => Or (derive c r1) (derive c r2)
  | Star r1 => Seq (derive c r1) (Star r1)
  end.

(** Every class of the pattern gives [f c] the verdict it gives [c]. *)
Fixpoint respects (f : ascii -> ascii) (r : re) : Prop :=
  match r with
  | Never | Empty => True
  | Class p => forall c, p (f c) = p c
  | Seq r1 r2 | Or r1 r2 => respects f r1 /\ respects f r2
  | Star r1 => respects f r1
  end.

Definition accepts (r : re) (s : list ascii) : bool :=
  nullable (fold_left (fun r c => derive c r) s r).

(** [/^r$/.test(s)]. *)
Definition test (r : re) (s : string) : bool := accepts r (chars s).

End Regex.

(** ** The login form: [validateEmail], [toggle_login_mode], [guess_host] *)

Module Login.
Import JS Str Regex.

(** The code unit of [c] is from [lo] to [hi]. *)
Definition code_in (lo hi : nat) (c : ascii) : bool :=
  (lo <=? nat_of_ascii c)%nat && (nat_of_ascii c <=? hi)%nat.

(** [s.toLowerCase()] on code units below 256: the letters A to Z, and the
    accented capitals of Latin-1 (the multiplication sign is not one). *)
Definition lower_char (c : ascii) : ascii :=
  if code_in 65 90 c
     || (code_in 192 222 c && negb (Nat.eqb (nat_of_ascii c) 215))
  then ascii_of_nat (nat_of_ascii c + 32) else c.

Definition toLowerCase (s : string) : string := unchars (map lower_char (chars s)).

(** The character classes of line 355. *)

(** The negated class of the local part: anything but [<>()[]], a backslash,
    [.,;:], white space ([\s], which is [is_space] on these code units), [@]
    and the double quote. *)
Definition atom_char (c : ascii) : bool :=
  negb (Ascii.eqb c "<"%char || Ascii.eqb c ">"%char
        || Ascii.eqb c "("%char || Ascii.eqb c ")"%char
        || Ascii.eqb c "["%char || Ascii.eqb c "]"%char
        || Ascii.eqb c JSON.backslash
        || Ascii.eqb c "."%char || Ascii.eqb c ","%char
        || Ascii.eqb c ";"%char || Ascii.eqb c ":"%char
        || is_space c
        || Ascii.eqb c "@"%char || Ascii.eqb c JSON.dquote).

(** [.]: any character but a line terminator. *)
Definition any_char (c : ascii) : bool :=
  negb (Ascii.eqb c (ascii_of_nat 10) || Ascii.eqb c (ascii_of_nat 13)).

(** [[a-zA-Z]] *)
Definition letter (c : ascii) : bool := code_in 97 122 c || code_in 65 90 c.

(** [[a-zA-Z\-0-9]] *)
Definition label_char (c : ascii) : bool :=
  letter c || Ascii.eqb c "-"%char || is_digit c.

(** The first alternative of the local part: runs of such characters
    separated by single dots. *)
Definition dot_atom : re :=
  Seq (Plus (Class atom_char))
      (Star (Seq (Lit "."%char) (Plus (Class atom_char)))).

(** The second alternative: a double quote, [.+], a double quote. *)
Definition quoted : re :=
  Seqs [Lit JSON.dquote; Plus (Class any_char); Lit JSON.dquote].

(** [(\[[0-9]{1,3}\.[0-9]{1,3}\.[0-9]{1,3}\.[0-9]{1,3}\])] *)
Definition bracketed_quad : re :=
  Seqs [ Lit "["%char;
         Upto3 (Class is_digit); Lit "."%char;
         Upto3 (Class is_digit); Lit "."%char;
         Upto3 (Class is_digit); Lit "."%char;
         Upto3 (Class is_digit);
         Lit "]"%char ].

(** [(([a-zA-Z\-0-9]+\.)+[a-zA-Z]{2,})] *)
Definition host_name : re :=
  Seq (Plus (Seq (Plus (Class label_char)) (Lit "."%char)))
      (Atleast2 (Class letter)).

(** The pattern of line 355, between its [^] and its [$]. *)
Definition email_re : re :=
  Seqs [Or dot_atom quoted; Lit "@"%char; Or bracketed_quad host_name].

(** Lines 354 to 357.  The argument is the text of an element, a string. *)
Definition validateEmail (email : string) : bool :=
  test email_re (toLowerCase email).

Fixpoint starts_with (sub s : list ascii) : bool :=
  match sub, s with
  | [], _ => true
  | a :: sub', b :: s' => Ascii.eqb a b && starts_with sub' s'
  | _ :: _, [] => false
  end.

Fixpoint includes_chars (sub s : list ascii) : bool :=
  starts_with sub s
  || match s with
     | [] => false
     | _ :: s' => includes_chars sub s'
     end.

(** [s.includes(sub)]. *)
Definition includes (s sub : string) : bool := includes_chars (chars sub) (chars s).

(** The jQuery calls of the two functions, in the order they are made:
    [attr(name, value)], [removeAttr(name)], [show()], [hide()], [remove()],
    [val(value)], and the [not(':checked').prop('checked', true)] of
    line 528. *)
Inductive call : Type :=
  | Attr_set (selector name value : string)
  | Attr_removed (selector name : string)
  | Shown (selector : string)
  | Hidden (selector : string)
  | Removed (selector : string)
  | Val_set (selector value : string)
  | Checked (selector : string).

(** Lines 259 to 268; [oauth] is what [$('#rdo-oauth').is(':checked')] gave. *)
Definition toggle_login_mode (oauth : bool) : list call :=
  if oauth then [Shown ".oauth"; Hidden ".plain"]
  else [Hidden ".oauth"; Shown ".plain"].

(** Lines 530 to 533. *)
Definition other_host (email_addr : string) : string :=
  if includes email_addr "yahoo" then "imap.mail.yahoo.com"
  else if includes email_addr "csail" then "imap.csail.mit.edu"
  else if includes email_addr "mit" then "imap.exchange.mit.edu"
  else "".

(** Lines 510 to 539. *)
Definition guess_host (oauth : bool) (email_addr : string) : list call :=
  ([ Attr_set "#link-less-secure" "href" "";
     Attr_set "#rdo-oauth" "disabled" "" ]
   ++ if validateEmail email_addr then
        [Shown "#password-container"]
        ++ toggle_login_mode oauth
        ++ (if includes email_addr "gmail" then
              [ Val_set "#input-host" "imap.gmail.com";
                Attr_set "#link-less-secure" "href"
                         "https://myaccount.google.com/lesssecureapps";
                Attr_removed "#rdo-oauth" "disabled";
                Shown ".oauth" ]
            else
              [ Removed ".oauth";
                Checked "#rdo-plain";
                Val_set "#input-host" (other_host email_addr);
                Hidden ".oauth" ])
      else [Hidden "#password-container"])%list.

(** *** Words for the strings of the pattern *)

(** A non-empty run of characters of one class. *)
Definition run_of (p : ascii -> bool) (x : list ascii) : Prop :=
  x <> [] /\ Forall (fun c => p c = true) x.

(** One to three digits. *)
Definition octet (x : list ascii) : Prop :=
  run_of is_digit x /\ length x <= 3.

(** The two forms of a local part: runs joined by single dots, or one line
    of text between double quotes. *)
Definition local_part (l : list ascii) : Prop :=
  (exists r rs, l = (r ++ concat (map (cons "."%char) rs))%list
                /\ Forall (run_of atom_char) (r :: rs))
  \/ (exists m, l = (JSON.dquote :: m ++ [JSON.dquote])%list /\ run_of any_char m).

(** The two forms of a domain: four groups of digits between brackets, or
    labels, each followed by a dot, and then two letters or more. *)
Definition domain_part (d : list ascii) : Prop :=
  (exists a b c e,
     d = ("["%char :: a ++ "."%char :: b ++ "."%char :: c ++ "."%char :: e ++ ["]"%char])%list
     /\ Forall octet [a; b; c; e])
  \/ (exists x xs tld,
        d = (concat (map (fun y => y ++ ["."%char]) (x :: xs)) ++ tld)%list
        /\ Forall (run_of label_char) (x :: xs)
        /\ 2 <= length tld /\ Forall (fun c => letter c = true) tld).

(** The characters of a domain. *)
Definition domain_char (c : ascii) : Prop :=
  label_char c = true \/ c = "."%char \/ c = "["%char \/ c = "]"%char.

End Login.

(** ** The editor page: running mark, requests to the mail bot, tabs *)

Module EditorPage.
Import JS.

(** What the handlers show and send, besides what they change on the
    page: [console.log(res)], a paragraph put on top of the console,
    [notify(res, ok)], and the request of [delete_mode(id)]. *)
Inductive effect : Type :=
  | Console_log
  | Console_prepended (html : string) (class : string)
  | Notified (ok : bool)
  | Post_delete (id : value).

(** What the callback reads of a response of [/run_mailbot]: whether
    [status], [imap_error] and [code] are truthy, and the log text.  A
    response without [imap_log] is one with the empty text: [append_log]
    returns at its guard for both. *)
Record response := Response
  { status : bool; imap_error : bool; imap_log : string; code : bool }.

(** The text of the submit button, the class [fa-spin] of the cog, the
    [display] of the idle mark, whether the loader is shown, the array
    [unsaved_tabs] of line 25, and what was shown or sent so far. *)
Record page := Page
  { button_text : string;
    cog_spinning : bool;
    idle_mark : string;
    loader_shown : bool;
    unsaved_tabs : list value;
    effects : list effect }.

Definition emit (e : effect) (p : page) : page :=
  Page (button_text p) (cog_spinning p) (idle_mark p) (loader_shown p)
       (unsaved_tabs p) (effects p ++ [e])%list.

(** Lines 254 to 257. *)
Definition show_loader (is_show : bool) (p : page) : page :=
  Page (button_text p) (cog_spinning p) (idle_mark p) is_show
       (unsaved_tabs p) (effects p).

(** Lines 317 to 326. *)
Definition spinStatusCog (spin : bool) (p : page) : page :=
  Page (button_text p) spin (if spin then "none" else "inline-block")
       (loader_shown p) (unsaved_tabs p) (effects p).

(** Lines 303 to 315. *)
Definition set_running (start_running : bool) (p : page) : page :=
  let p := spinStatusCog start_running p in
  Page (if start_running then "Disable" else "Enable")
       (cog_spinning p) (idle_mark p) (loader_shown p) (unsaved_tabs p) (effects p).

(** Lines 298 to 301. *)
Definition get_running (p : page) : bool := String.eqb (button_text p) "Disable".

(** Lines 489 to 508, on this page. *)
Definition append_log (log : string) (is_error : bool) (p : page) : page :=
  if String.eqb log "" then p
  else emit (Console_prepended ("<p>" ++ Editor.newlines_to_br log ++ "</p>")
                               (if is_error then "error" else "info")) p.

(** Lines 419 to 452: the callback of [run_code(is_dry_run, is_running)]. *)
Definition run_code_done (is_running : bool) (res : response) (p : page) : page :=
  let p := emit Console_log (show_loader false p) in
  if status res then
    let p := Page (button_text p) (cog_spinning p) (idle_mark p) (loader_shown p)
                  [] (effects p) in
    let p :=
      if imap_error res
      then set_running false (append_log (imap_log res) true p)
      else set_running is_running (append_log (imap_log res) false p) in
    if code res then p else emit (Notified true) p
  else emit (Notified false) p.

(** Lines 207 to 212: the second argument the submit button gives
    [run_code]. *)
Definition submit_clicked (p : page) : bool := negb (get_running p).

(** [s.split('_')[1]]: [undefined] without an underscore. *)
Fixpoint after_underscore (l : list ascii) : option (list ascii) :=
  match l with
  | [] => None
  | c :: rest => if Ascii.eqb c "_"%char then Some rest else after_underscore rest
  end.

Fixpoint upto_underscore (l : list ascii) : list ascii :=
  match l with
  | [] => []
  | c :: rest => if Ascii.eqb c "_"%char then [] else c :: upto_underscore rest
  end.

Definition second_piece (s : string) : value :=
  match after_underscore (chars s) with
  | Some rest => VStr (unchars (upto_underscore rest))
  | None => VUndefined
  end.

(** [unsaved_tabs.includes(x)] for [x] a string or [undefined]: the two are
    the same value only if they are of one type and equal. *)
Definition includes (l : list value) (x : value) : bool :=
  existsb (fun v => match v, x with
                    | VStr a, VStr b => String.eqb a b
                    | VUndefined, VUndefined => true
                    | _, _ => false
                    end) l.

(** Events of the tabs.  [Tab_added] carries the text of the number that
    line 112 computed, [Math.max.apply(null, modes_keys) + 1]; [Tab_closed]
    the [href] of the closed tab's link, read on line 101 after lines 96 to
    99 changed the document. *)
Inductive event : Type :=
  | Tab_added (id : string)
  | Tab_closed (href : string)
  | Run_code_answered (is_running : bool) (res : response).

Definition step (p : page) (ev : event) : page :=
  match ev with
  | Tab_added id =>
      (* line 119 *)
      Page (button_text p) (cog_spinning p) (idle_mark p) (loader_shown p)
           (unsaved_tabs p ++ [VNum id])%list (effects p)
  | Tab_closed href =>
      (* lines 101 to 103 *)
      let mode_id := second_piece href in
      if negb (includes (unsaved_tabs p) mode_id)
      then emit (Post_delete mode_id) p
      else p
  | Run_code_answered is_running res => run_code_done is_running res p
  end.

Definition run (p : page) (evs : list event) : page := fold_left step evs p.

End EditorPage.

(** ** The editor's completion helper, lines 54 to 75 *)

Module Hint.
Import JS Str.
Import Login (code_in).

(** [/[\w$]/.test(c)] for a character [c]. *)
Definition word_char (c : ascii) : bool :=
  code_in 97 122 c || code_in 65 90 c || is_digit c
  || Ascii.eqb c "_"%char || Ascii.eqb c "$"%char.

(** [/[\w$]/.test(curLine.charAt(i))]: [charAt] gives the empty string past
    the end, which the pattern does not match. *)
Definition word_at (curLine : list ascii) (i : nat) : bool :=
  match curLine !! i with
  | Some c => word_char c
  | None => false
  end.

(** Line 60: [while (end < curLine.length && ...) ++end], with as much fuel
    as there are characters from [end] on. *)
Fixpoint scan_end (fuel : nat) (curLine : list ascii) (end_ : nat) : nat :=
  match fuel with
  | O => end_
  | S fuel' =>
      if (end_ <? length curLine)%nat && word_at curLine end_
      then scan_end fuel' curLine (S end_)
      else end_
  end.

(** Line 61: [while (start && ...) --start]. *)
Fixpoint scan_start (curLine : list ascii) (start : nat) : nat :=
  match start with
  | O => O
  | S before => if word_at curLine before then scan_start curLine before else start
  end.

(** [curLine.slice(start, end)] for [start <= end]. *)
Definition slice (curLine : list ascii) (start end_ : nat) : list ascii :=
  take (end_ - start) (drop start curLine).

(** How the flag [i] compares two characters: by their upper-case forms.
    On code units below 256 these are the capitals of a to z and of the
    accented small letters of Latin-1; the capitals of the micro sign and of
    y with diaeresis lie above 255, so those two stay as they are. *)
Definition canonicalize (c : ascii) : ascii :=
  if code_in 97 122 c
     || (code_in 224 254 c && negb (Nat.eqb (nat_of_ascii c) 247))
  then ascii_of_nat (nat_of_ascii c - 32) else c.

(** [item.match(new RegExp('^' + word, 'i'))] for a word of characters of
    [[\w$]]: each stands for itself, but for [$], which holds only at the end
    of [item]. *)
Fixpoint match_here (word item : list ascii) : bool :=
  match word with
  | [] => true
  | c :: word' =>
      if Ascii.eqb c "$"%char then
        match item with
        | [] => match_here word' []
        | _ :: _ => false
        end
      else
        match item with
        | t :: item' =>
            Ascii.eqb (canonicalize c) (canonicalize t) && match_here word' item'
        | [] => false
        end
  end.

(** Line 62 and the text of line 63's pattern after its [^]: the word, or
    the text of [false] when [start] and [end] are equal. *)
Definition pattern_text (curLine : list ascii) (start end_ : nat) : list ascii :=
  if Nat.eqb start end_ then chars "false" else slice curLine start end_.

(** Line 68: a lone suggestion gets a blank after it.  (Otherwise the line
    calls [console.log()] with nothing to print.) *)
Definition pad_single (suggestion : list string) : list string :=
  match suggestion with
  | [_] => suggestion ++ [" "]
  | _ => suggestion
  end%list.

Record hints := Hints { list_ : list string; from : nat; to : nat }.

(** The helper, for the line of the cursor and the cursor's column. *)
Definition dictionaryHint (method_names : list string) (curLine : string) (ch : nat)
  : hints :=
  let line := chars curLine in
  let end_ := scan_end (length line - ch) line ch in
  let start := scan_start line ch in
  let word := pattern_text line start end_ in
  let suggestion :=
    sort_default (filter (fun item => match_here word (chars item) = true) method_names) in
  Hints (pad_single suggestion) start end_.

End Hint.

(** ** The id of a new tab, line 112 *)

Module Tabs.
Import JS Str.

(** The numbers line 112 can meet when every key is a plain numeral, is
    [-Infinity], or is no number at all.  An integer stands for itself as
    long as it is at most [2^53], where doubles are exact. *)
Inductive number : Type :=
  | Int (n : N)
  | NegInfinity
  | NaN.

Definition exact_below : N := 9007199254740992.

(** A decimal numeral without sign, leading zero or anything else. *)
Definition is_numeral (k : string) : bool :=
  match chars k with
  | [] => false
  | c :: rest =>
      forallb is_digit (c :: rest)
      && (negb (Ascii.eqb c "0"%char) || match rest with [] => true | _ => false end)
  end.

(** What [decimal_value] makes of further digits [l] after the value [a]. *)
Definition value_from (l : list ascii) (a : N) : N :=
  fold_left (fun acc c => (10 * acc + digit_val c)%N) l a.

(** ToNumber of a key, where it is one of the three kinds: a numeral below
    [2^53]; the text [-Infinity]; or a text that cannot be a number, having
    no digit, no [Infinity] in it and something other than white space.
    Other keys (fractions, exponents, signs, hexadecimal, padded text) are
    left out. *)
Definition to_number (k : string) : option number :=
  if is_numeral k then
    if (decimal_value k <? exact_below)%N then Some (Int (decimal_value k)) else None
  else if String.eqb k "-Infinity" then Some NegInfinity
  else if existsb is_digit (chars k) || Login.includes k "Infinity" || negb (nonblank k)
  then None
  else Some NaN.

(** [Math.max] of two numbers. *)
Definition max2 (a b : number) : number :=
  match a, b with
  | NaN, _ | _, NaN => NaN
  | NegInfinity, x | x, NegInfinity => x
  | Int x, Int y => Int (N.max x y)
  end.

(** [Math.max.apply(null, l)], for as many arguments as the engine takes:
    [-Infinity] for no argument. *)
Definition max_of (l : list number) : number := fold_left max2 l NegInfinity.

(** [x + 1]. *)
Definition plus_one (x : number) : number :=
  match x with
  | Int n => Int (n + 1)
  | NegInfinity => NegInfinity
  | NaN => NaN
  end.

Fixpoint digits_of (fuel : nat) (n : N) (acc : string) : string :=
  match fuel with
  | O => acc
  | S fuel' =>
      let acc' := String (ascii_of_N (48 + n mod 10)) acc in
      if (n <? 10)%N then acc' else digits_of fuel' (n / 10) acc'
  end.

(** The decimal numeral of [n]; it has no more digits than [n] has bits. *)
Definition numeral_of (n : N) : string :=
  digits_of (S (N.to_nat (N.size n))) n "".

(** ToString of a number, as line 113 puts it in the markup. *)
Definition to_text (x : number) : string :=
  match x with
  | Int n => numeral_of n
  | NegInfinity => "-Infinity"
  | NaN => "NaN"
  end.

Fixpoint all_numbers (keys : list string) : option (list number) :=
  match keys with
  | [] => Some []
  | k :: rest =>
      match to_number k, all_numbers rest with
      | Some x, Some l => Some (x :: l)
      | _, _ => None
      end
  end.

(** Lines 110 to 113: the id of the new tab, as text, from the keys of
    [get_modes()]; nothing when a key is of a kind left out above. *)
Definition new_tab_id (modes_keys : list string) : option string :=
  match all_numbers modes_keys with
  | Some l => Some (to_text (plus_one (max_of l)))
  | None => None
  end.

End Tabs.


(** * The words of the statements *)

Module Terms.
Import JS Str History.

Local Close Scope string_scope.

(** Nothing but the heap, the table and the trace differs. *)
Definition same_control (w w' : world) : Prop :=
  log_backup w' = log_backup w /\
  user_status_backup w' = user_status_backup w /\
  load_more_visible w' = load_more_visible w /\
  load_more_handlers w' = load_more_handlers w /\
  requests w' = requests w /\
  timers w' = timers w.

(** The rows a stretch of the trace added. *)
Definition rows_of (es : list effect) : list row :=
  omap (fun e => match e with Row_added r => Some r | _ => None end) es.

(** None of the internal fields is an own field of [m]. *)
Definition internal_free (m : value) : Prop :=
  forall f, f ∈ internal_fields -> f ∉ own_keys m.

(** What [append_log] may do, and with what data. *)
Definition render_effect (e : effect) : Prop :=
  match e with
  | Row_added _ | Ordered _ _ => True
  | Jsonpanel _ data =>
      (exists m, data = VObj [("Message", m)] /\ internal_free m)
      \/ (exists c, data = VObj [("Contact", c)])
  | Set_text _ text =>
      (exists m, internal_free m /\ text = preview_msg m)
      \/ (exists a b c d, text = contact_preview a b c d)
  | _ => False
  end.

(** [w'] is [w] after some rendering that added [rows]. *)
Definition renders (w w' : world) (rows : list row) : Prop :=
  same_control w w' /\
  table w' = table w ++ rows /\
  exists es, effects w' = effects w ++ es /\ rows_of es = rows /\ Forall render_effect es.

(** The string starts with a decimal digit. *)
Definition head_digit (s : string) : bool :=
  match s with
  | String c _ => is_digit c
  | EmptyString => false
  end.

(** No request is in flight and no timer is pending: the loop has stopped. *)
Definition halted (w : world) : Prop := requests w = 0 /\ timers w = 0.

(** The keys of the snapshot a payload decodes to. *)
Definition payload_keys (text : string) : list string :=
  match JSON.parse text with
  | inr v => own_keys v
  | inl _ => []
  end.

(** Line 92: what the load-more handler will render. *)
Definition rest_key (c : closure) : list string :=
  not_in (keys_of (initial_msg_log c)) (recent_keys c).


(** Every delta in the trace holds only keys that no earlier row was made
    from. *)
Fixpoint deltas_fresh (seen : list string) (es : list effect) : Prop :=
  match es with
  | [] => True
  | Row_added r :: es' => deltas_fresh (row_key r :: seen) es'
  | Diffed ks :: es' => (forall k, k ∈ ks -> k ∉ seen) /\ deltas_fresh seen es'
  | _ :: es' => deltas_fresh seen es'
  end.


(** Effects that hand no internal field to a panel. *)
Definition clean (e : effect) : Prop :=
  match e with
  | Jsonpanel _ _ | Set_text _ _ => render_effect e
  | _ => True
  end.

(** Effects that are no delta and hand no internal field to a panel. *)
Definition tame (e : effect) : Prop :=
  match e with
  | Diffed _ | Uncaught _ _ => False
  | Jsonpanel _ _ | Set_text _ _ => render_effect e
  | _ => True
  end.

(** Effects of a callback that is still running. *)
Definition calm (e : effect) : Prop :=
  match e with
  | Uncaught _ _ => False
  | Jsonpanel _ _ | Set_text _ _ => render_effect e
  | _ => True
  end.

(** What a first load does: at most ten rows for keys of the snapshot, and,
    when it returns, the button shown with one more handler. *)
Definition first_load_post (v : value) (w : world) (r : error + unit)
    (w' : world) : Prop :=
  exists h rows es visible handlers,
    w' = World (log_backup w) (user_status_backup w) h (table w ++ rows) visible
               handlers (requests w) (timers w) (effects w ++ es)
    /\ rows_of es = rows
    /\ Forall tame es
    /\ NoDup (map row_key rows)
    /\ map row_key rows ⊆ own_keys v
    /\ length rows <= 10
    /\ match r with
       | inl _ => visible = load_more_visible w /\ handlers = load_more_handlers w
       | inr _ =>
           visible = true
           /\ exists c, handlers = load_more_handlers w ++ [c]
                  /\ keys_of (initial_msg_log c) ⊆ own_keys v
                  /\ forall k, k ∈ rest_key c -> k ∉ map row_key rows
       end.

(** What a later load does: rows for new keys only, and a delta that holds
    none of the old keys. *)
Definition later_load_post (b : string) (v : value) (w : world)
    (r : error + unit) (w' : world) : Prop :=
  exists h rows es,
    w' = World (log_backup w) (user_status_backup w) h (table w ++ rows)
               (load_more_visible w) (load_more_handlers w) (requests w)
               (timers w) (effects w ++ es)
    /\ rows_of es = rows
    /\ Forall calm es
    /\ NoDup (map row_key rows)
    /\ (forall k, k ∈ map row_key rows -> k ∈ own_keys v /\ k ∉ payload_keys b)
    /\ (forall seen, seen ⊆ payload_keys b -> deltas_fresh seen es).

(** [w'] has the rows of [w] and then maybe more, and the trace of [w]
    and then maybe more clean effects. *)
Definition extends (w w' : world) : Prop :=
  table w `prefix_of` table w'
  /\ exists es, effects w' = effects w ++ es /\ Forall clean es.

(** A statement that only adds rows and clean effects. *)
Definition steady {A} (m : M A) : Prop := forall w, extends w (m w).2.

(** The payloads of the responses with [status] true, in order. *)
Definition successful_payloads (evs : list event) : list string :=
  omap (fun ev => match ev with
                  | Response_arrived res =>
                      if status res then Some (imap_log res) else None
                  | _ => None
                  end) evs.

(** Each snapshot has every key of the one before it. *)
Fixpoint append_only_from (K : list string) (payloads : list string) : Prop :=
  match payloads with
  | [] => True
  | p :: rest => K ⊆ payload_keys p /\ append_only_from (payload_keys p) rest
  end.

(** The log of the session is append-only. *)
Definition append_only (evs : list event) : Prop :=
  append_only_from [] (successful_payloads evs).


End Terms.

(** * More words for statements *)

Module Notions.
Import JS Str History.




(** Ascending by code units: no element is above the next one. *)
Fixpoint ascending (l : list string) : Prop :=
  match l with
  | a :: (b :: _) as rest => String.leb a b = true /\ ascending rest
  | _ => True
  end.






End Notions.

(** * Inputs used for evaluation *)

Import JS Str History Terms.

Module Inputs.

(** The spec's scenario: two entries, then the same two and a third. *)
Definition payload_AB : string :=
  JSON.dq "{'A':{'trigger':'t','log':'hello','from_':{'name':'n'}},'B':{'from_':{}}}".


(** The wire text of an entry that carries a contact. *)
Definition entry_text (k : string) : string :=
  ("'" +:+ k +:+ "':{'log':'ran','from_':{'name':'n'}}")%string.

(** The wire text of a log with these keys, in this order. *)
Definition log_of (keys : list string) : string :=
  JSON.dq ("{" +:+ JS.join "," (map entry_text keys) +:+ "}").

(** Eleven entries of one morning; the server lists the latest one first. *)
Definition eleven_keys : list string :=
  [ "1/1/2024, 9:00:10 AM"; "1/1/2024, 9:00:00 AM"; "1/1/2024, 9:00:01 AM";
    "1/1/2024, 9:00:02 AM"; "1/1/2024, 9:00:03 AM"; "1/1/2024, 9:00:04 AM";
    "1/1/2024, 9:00:05 AM"; "1/1/2024, 9:00:06 AM"; "1/1/2024, 9:00:07 AM";
    "1/1/2024, 9:00:08 AM"; "1/1/2024, 9:00:09 AM" ].

Definition first_response : event :=
  Response_arrived (Response true (log_of eleven_keys) "").

(** The three timestamps of the spec's ordering example, and a fourth on the
    day of the first. *)
Definition four_keys : list string :=
  [ "1/1/2024, 1:00:00 PM"; "1/1/2024, 2:00:00 PM";
    "1/2/2024, 9:00:00 AM"; "12/31/2023, 11:59:59 PM" ].

(** Two entries; the earlier one was not triggered by a message and has no
    [from_]. *)
Definition log_without_contact : string :=
  JSON.dq ("{'1/1/2024, 1:00:00 PM':{'trigger':'t','log':'x'},"
           +:+ "'1/1/2024, 2:00:00 PM':{'log':'y','from_':{'name':'n'}}}").

(** The eleven entries again, the one listed first without a [from_]. *)
Definition log_with_bare_first : string :=
  JSON.dq ("{'1/1/2024, 9:00:10 AM':{'log':'ran'},"
           +:+ JS.join "," (map entry_text (drop 1 eleven_keys)) +:+ "}").

(** The preview texts of a trace. *)
Definition text_set (e : effect) : option (string * string) :=
  match e with
  | Set_text selector text => Some (selector, text)
  | _ => None
  end.

End Inputs.

(** * Properties *)

Local Close Scope string_scope.

(** ** The decoder: every parse consumes text, and its fuel is enough *)

Module JSONFacts.
Import JS JSON.

Lemma chars_length (s : string) : length (chars s) = String.length s.
Proof. induction s as [|c s IH]; simpl; [done | by rewrite IH]. Qed.

Lemma skip_ws_length (l : list ascii) : length (skip_ws l) <= length l.
Proof.
  induction l as [|c l IH]; simpl; [lia|].
  destruct (is_ws c); simpl; lia.
Qed.

Lemma span_digits_length (l ds r : list ascii) :
  span_digits l = (ds, r) -> length r + length ds = length l.
Proof.
  revert ds r. induction l as [|c l IH]; intros ds r; simpl.
  - intros [= <- <-]. done.
  - destruct (is_digit c).
    + destruct (span_digits l) as [ds' r'] eqn:E. intros [= <- <-].
      specialize (IH _ _ eq_refl). simpl. lia.
    + intros [= <- <-]. simpl. lia.
Qed.

Lemma nonempty_digits_length (l ds r : list ascii) :
  nonempty_digits l = Some (ds, r) -> length r < length l.
Proof.
  unfold nonempty_digits. destruct (span_digits l) as [ds' r'] eqn:E.
  apply span_digits_length in E.
  destruct ds' as [|d ds']; [done|]. intros [= <- <-]. simpl in E. lia.
Qed.

Lemma number_sign_length (l sg r : list ascii) :
  number_sign l = (sg, r) -> length r <= length l.
Proof.
  destruct l as [|c l]; simpl; [by intros [= <- <-]|].
  destruct (Ascii.eqb c "-"); intros [= <- <-]; simpl; lia.
Qed.

Lemma number_int_length (l ds r : list ascii) :
  number_int l = Some (ds, r) -> length r < length l.
Proof.
  destruct l as [|c l]; simpl; [done|].
  destruct (Ascii.eqb c "0").
  - intros [= <- <-]. lia.
  - intros H. apply nonempty_digits_length in H. done.
Qed.

Lemma number_frac_length (l ds r : list ascii) :
  number_frac l = Some (ds, r) -> length r <= length l.
Proof.
  destruct l as [|c l]; simpl; [by intros [= <- <-]|].
  destruct (Ascii.eqb c ".").
  - destruct (nonempty_digits l) as [[ds' r']|] eqn:E; [|done].
    apply nonempty_digits_length in E. intros [= <- <-]. lia.
  - intros [= <- <-]. simpl. lia.
Qed.

Lemma exponent_sign_length (l sg r : list ascii) :
  exponent_sign l = (sg, r) -> length r <= length l.
Proof.
  destruct l as [|c l]; simpl; [by intros [= <- <-]|].
  destruct (Ascii.eqb c "+" || Ascii.eqb c "-"); intros [= <- <-]; simpl; lia.
Qed.

Lemma number_exp_length (l ds r : list ascii) :
  number_exp l = Some (ds, r) -> length r <= length l.
Proof.
  destruct l as [|c l]; simpl; [by intros [= <- <-]|].
  destruct (Ascii.eqb c "e" || Ascii.eqb c "E").
  - destruct (exponent_sign l) as [sg r1] eqn:Es.
    apply exponent_sign_length in Es.
    destruct (nonempty_digits r1) as [[ds' r']|] eqn:E; [|done].
    apply nonempty_digits_length in E. intros [= <- <-]. lia.
  - intros [= <- <-]. simpl. lia.
Qed.

Lemma parse_number_length (l : list ascii) (lexeme : string) (r : list ascii) :
  parse_number l = Some (lexeme, r) -> length r < length l.
Proof.
  unfold parse_number.
  destruct (number_sign l) as [sg l1] eqn:E1. apply number_sign_length in E1.
  destruct (number_int l1) as [[ip l2]|] eqn:E2; [|done].
  apply number_int_length in E2.
  destruct (number_frac l2) as [[fp l3]|] eqn:E3; [|done].
  apply number_frac_length in E3.
  destruct (number_exp l3) as [[ep l4]|] eqn:E4; [|done].
  apply number_exp_length in E4.
  intros [= <- <-]. lia.
Qed.

Lemma strip_prefix_length (p l r : list ascii) :
  strip_prefix p l = Some r -> length r <= length l.
Proof.
  revert l. induction p as [|a p IH]; intros [|b l]; simpl; try done.
  - intros [= <-]. done.
  - intros [= <-]. done.
  - destruct (Ascii.eqb a b); [|done]. intros H. apply IH in H. lia.
Qed.

Lemma parse_string_body_length (l acc : list ascii) (s : string) (r : list ascii) :
  parse_string_body l acc = Some (s, r) -> length r < length l.
Proof.
  remember (length l) as n eqn:Hn. revert l acc Hn.
  induction n as [n IH] using lt_wf_ind. intros l acc ->.
  destruct l as [|c l]; simpl; [done|].
  destruct (Ascii.eqb c dquote); [intros [= <- <-]; lia|].
  destruct (Ascii.eqb c backslash).
  - destruct l as [|e l1]; [done|].
    destruct (simple_escape e).
    + intros H. eapply IH in H; [| |reflexivity]; simpl; lia.
    + destruct (Ascii.eqb e "u"); [|done].
      destruct l1 as [|h1 [|h2 [|h3 [|h4 l2]]]]; try done.
      destruct (hex_val h1), (hex_val h2), (hex_val h3), (hex_val h4); try done.
      intros H. eapply IH in H; [| |reflexivity]; simpl in *; lia.
  - destruct (nat_of_ascii c <? 32)%nat; [done|].
    intros H. eapply IH in H; [| |reflexivity]; simpl; lia.
Qed.

Lemma closed_by_length (c : ascii) (l r : list ascii) :
  closed_by c l = Some r -> length r < length l.
Proof.
  unfold closed_by. pose proof (skip_ws_length l) as Hl.
  destruct (skip_ws l) as [|d rest]; [done|].
  destruct (Ascii.eqb d c); [|done]. intros [= <-]. simpl in Hl. lia.
Qed.

Lemma parse_value_settled (fuel : nat) :
  settled parse_value fuel
  /\ (forall acc, settled (fun f l => parse_members f l acc) fuel)
  /\ (forall acc, settled (fun f l => parse_elements f l acc) fuel).
Proof.
  induction fuel as [|fuel (IHv & IHm & IHe)].
  { repeat split; intros; discriminate. }
  split; [|split].
  - intros l v r. cbn [parse_value parse_members parse_elements].
    pose proof (skip_ws_length l) as Hl.
    destruct (skip_ws l) as [|c rest] eqn:Hws; [done|]. simpl in Hl.
    destruct (Ascii.eqb c "{") eqn:Ec1.
    { destruct (closed_by "}" rest) as [rest'|] eqn:Hc.
      - pose proof (closed_by_length _ _ _ Hc). intros [= <- <-]. split; [lia|].
        intros [|g] Hg; [lia|]. cbn [parse_value parse_members parse_elements]. by rewrite Hws, Ec1, Hc.
      - intros H. apply IHm in H as [H1 H2]. split; [lia|].
        intros [|g] Hg; [lia|]. cbn [parse_value parse_members parse_elements]. rewrite Hws, Ec1, Hc. apply H2. lia. }
    destruct (Ascii.eqb c "[") eqn:Ec2.
    { destruct (closed_by "]" rest) as [rest'|] eqn:Hc.
      - pose proof (closed_by_length _ _ _ Hc). intros [= <- <-]. split; [lia|].
        intros [|g] Hg; [lia|]. cbn [parse_value parse_members parse_elements]. by rewrite Hws, Ec1, Ec2, Hc.
      - intros H. apply IHe in H as [H1 H2]. split; [lia|].
        intros [|g] Hg; [lia|]. cbn [parse_value parse_members parse_elements]. rewrite Hws, Ec1, Ec2, Hc. apply H2. lia. }
    intros H.
    assert (length r < length l) as Hr.
    { revert H. destruct (Ascii.eqb c dquote).
      { destruct (parse_string_body rest []) as [[s rest']|] eqn:Hs; [|done].
        apply parse_string_body_length in Hs. intros [= <- <-]. lia. }
      destruct (Ascii.eqb c "t").
      { destruct (strip_prefix _ rest) as [r'|] eqn:Hp; [|done].
        apply strip_prefix_length in Hp. intros [= <- <-]. lia. }
      destruct (Ascii.eqb c "f").
      { destruct (strip_prefix _ rest) as [r'|] eqn:Hp; [|done].
        apply strip_prefix_length in Hp. intros [= <- <-]. lia. }
      destruct (Ascii.eqb c "n").
      { destruct (strip_prefix _ rest) as [r'|] eqn:Hp; [|done].
        apply strip_prefix_length in Hp. intros [= <- <-]. lia. }
      destruct (parse_number (c :: rest)) as [[lexeme rest']|] eqn:Hn; [|done].
      apply parse_number_length in Hn. intros [= <- <-]. simpl in Hn. lia. }
    split; [done|]. intros [|g] Hg; [lia|]. cbn [parse_value parse_members parse_elements]. by rewrite Hws, Ec1, Ec2.
  - intros acc l v r. cbn [parse_value parse_members parse_elements].
    pose proof (skip_ws_length l) as Hl.
    destruct (skip_ws l) as [|c rest] eqn:Hws; [done|]. simpl in Hl.
    destruct (Ascii.eqb c dquote) eqn:Ec; [|done].
    destruct (parse_string_body rest []) as [[k rest1]|] eqn:Hs; [|done].
    pose proof (parse_string_body_length _ _ _ _ Hs) as Hk.
    destruct (closed_by ":" rest1) as [rest2|] eqn:Hc; [|done].
    pose proof (closed_by_length _ _ _ Hc) as Hc'.
    destruct (parse_value fuel rest2) as [[v1 rest3]|] eqn:Hv; [|done].
    destruct (IHv _ _ _ Hv) as [Hv1 Hv2].
    pose proof (skip_ws_length rest3) as Hl3.
    destruct (skip_ws rest3) as [|d rest4] eqn:Hws3; [done|]. simpl in Hl3.
    destruct (Ascii.eqb d ",") eqn:Ed1.
    { intros H. apply IHm in H as [H1 H2]. split; [lia|].
      intros [|g] Hg; [lia|]. cbn [parse_value parse_members parse_elements]. rewrite Hws, Ec, Hs, Hc.
      rewrite (Hv2 g) by lia. rewrite Hws3, Ed1. apply H2. lia. }
    destruct (Ascii.eqb d "}") eqn:Ed2; [|done].
    intros [= <- <-]. split; [lia|].
    intros [|g] Hg; [lia|]. cbn [parse_value parse_members parse_elements]. rewrite Hws, Ec, Hs, Hc.
    rewrite (Hv2 g) by lia. by rewrite Hws3, Ed1, Ed2.
  - intros acc l v r. cbn [parse_value parse_members parse_elements].
    destruct (parse_value fuel l) as [[v1 rest]|] eqn:Hv; [|done].
    destruct (IHv _ _ _ Hv) as [Hv1 Hv2].
    pose proof (skip_ws_length rest) as Hl.
    destruct (skip_ws rest) as [|d rest'] eqn:Hws; [done|]. simpl in Hl.
    destruct (Ascii.eqb d ",") eqn:Ed1.
    { intros H. apply IHe in H as [H1 H2]. split; [lia|].
      intros [|g] Hg; [lia|]. cbn [parse_value parse_members parse_elements].
      rewrite (Hv2 g) by lia. rewrite Hws, Ed1. apply H2. lia. }
    destruct (Ascii.eqb d "]") eqn:Ed2; [|done].
    intros [= <- <-]. split; [lia|].
    intros [|g] Hg; [lia|]. cbn [parse_value parse_members parse_elements].
    rewrite (Hv2 g) by lia. by rewrite Hws, Ed1, Ed2.
Qed.

(** The fuel of [parse] is enough: whatever some fuel parses, [parse]'s
    fuel parses. *)
Lemma parse_value_fuel (text : string) (fuel : nat) (v : value) (r : list ascii) :
  parse_value fuel (chars text) = Some (v, r) ->
  parse_value (S (String.length text)) (chars text) = Some (v, r).
Proof.
  intros H. destruct (parse_value_settled fuel) as [Hs _].
  apply Hs in H as [H1 H2]. apply H2. rewrite chars_length. lia.
Qed.

(** [parse] fails only where every fuel fails or leaves text behind. *)
Lemma parse_error_any_fuel (text : string) (e : error) (fuel : nat) :
  parse text = inl e ->
  match parse_value fuel (chars text) with
  | Some (_, r) => skip_ws r <> []
  | None => True
  end.
Proof.
  unfold parse. intros H.
  destruct (parse_value fuel (chars text)) as [[v r]|] eqn:E; [|done].
  apply parse_value_fuel in E. rewrite E in H.
  destruct (skip_ws r); [done|]. done.
Qed.

End JSONFacts.

(** ** Keys, sorting and differences *)

Module KeyFacts.
Import JS Str.

Lemma dedup_keys_elem k l : k ∈ dedup_keys l <-> k ∈ l.
Proof.
  induction l as [|a l IH]; simpl; [done|].
  rewrite !elem_of_cons, list_elem_of_filter, IH.
  destruct (decide (k = a)); naive_solver.
Qed.

Lemma dedup_keys_NoDup l : NoDup (dedup_keys l).
Proof.
  induction l as [|a l IH]; simpl; [constructor|].
  apply NoDup_cons. split.
  - rewrite list_elem_of_filter. naive_solver.
  - by apply NoDup_filter.
Qed.

Lemma insert_index_perm k l : insert_index k l ≡ₚ k :: l.
Proof.
  induction l as [|a l IH]; simpl; [done|].
  destruct (decimal_value k <=? decimal_value a)%N; [done|].
  rewrite IH. apply Permutation_swap.
Qed.

Lemma index_sort_perm l : fold_right insert_index [] l ≡ₚ l.
Proof.
  induction l as [|a l IH]; simpl; [done|].
  by rewrite insert_index_perm, IH.
Qed.

Lemma ordered_keys_perm l : ordered_keys l ≡ₚ dedup_keys l.
Proof.
  unfold ordered_keys. rewrite index_sort_perm.
  apply (filter_app_complement (fun k => is_array_index k)).
Qed.



Lemma ordered_keys_elem k l : k ∈ ordered_keys l <-> k ∈ l.
Proof. by rewrite ordered_keys_perm, dedup_keys_elem. Qed.

Lemma ordered_keys_NoDup l : NoDup (ordered_keys l).
Proof. rewrite ordered_keys_perm. apply dedup_keys_NoDup. Qed.

Lemma insert_sorted_perm k l : insert_sorted k l ≡ₚ k :: l.
Proof.
  induction l as [|a l IH]; simpl; [done|].
  destruct (String.leb k a); [done|].
  rewrite IH. apply Permutation_swap.
Qed.

Lemma sort_default_perm l : sort_default l ≡ₚ l.
Proof.
  induction l as [|a l IH]; simpl; [done|].
  by rewrite insert_sorted_perm, IH.
Qed.

Lemma not_in_elem k a b : k ∈ not_in a b <-> k ∈ a /\ k ∉ b.
Proof. unfold not_in. rewrite list_elem_of_filter. tauto. Qed.



Lemma slice_last_length {A} n (l : list A) : length (slice_last n l) <= n.
Proof. unfold slice_last. rewrite length_drop. lia. Qed.

End KeyFacts.

(** ** The two sorts *)

Module EngineFacts.
Import Str Engine History.






Lemma insert_gt_perm cmp x l : insert_gt cmp x l ≡ₚ x :: l.
Proof.
  induction l as [|y l IH]; simpl; [done|].
  destruct (0 <? cmp y x)%Z; [|done].
  rewrite IH. apply Permutation_swap.
Qed.

Lemma insertion_sort_perm cmp l : insertion_sort cmp l ≡ₚ l.
Proof.
  unfold insertion_sort. rewrite <- Permutation_rev.
  assert (forall acc, fold_left (fun rsorted x => insert_gt cmp x rsorted) l acc
                      ≡ₚ acc ++ l) as H.
  { induction l as [|x l IH]; intros acc; simpl; [by rewrite app_nil_r|].
    rewrite IH, insert_gt_perm. by rewrite <- Permutation_middle. }
  apply (H []).
Qed.

Lemma extend_run_nonnegative cmp prev l :
  (forall a b, (0 <= cmp a b)%Z) -> extend_run cmp false prev l = (l, []).
Proof.
  intros Hcmp. revert prev. induction l as [|x l IH]; intros prev; simpl; [done|].
  destruct (Z.ltb_spec (cmp x prev) 0) as [Hneg|_].
  - specialize (Hcmp x prev). lia.
  - by rewrite IH.
Qed.

(** V8's sort leaves an array as it is when the comparison function never
    returns a negative number. *)
Lemma timsort_nonnegative cmp l :
  (forall a b, (0 <= cmp a b)%Z) -> timsort cmp l = l.
Proof.
  intros Hcmp. unfold timsort, count_run.
  destruct l as [|a [|b l]]; try done.
  destruct (Z.ltb_spec (cmp b a) 0) as [Hneg|_].
  - specialize (Hcmp b a). lia.
  - by rewrite extend_run_nonnegative.
Qed.

Lemma gt_comparefn_nonnegative a b : (0 <= gt_comparefn a b)%Z.
Proof. unfold gt_comparefn. by destruct (gt a b). Qed.

(** On V8 the keys of a first load are the last ten that [Object.keys]
    lists. *)
Lemma recent_keys_on_timsort (keys : list string) :
  slice_last 10 (timsort gt_comparefn keys) = slice_last 10 keys.
Proof. by rewrite (timsort_nonnegative _ _ gt_comparefn_nonnegative). Qed.

End EngineFacts.

(** ** What rendering does to the page *)

Module RenderFacts.
Import JS Str History Terms.

Lemma rows_of_app es1 es2 : rows_of (es1 ++ es2) = rows_of es1 ++ rows_of es2.
Proof. unfold rows_of. apply omap_app. Qed.

Lemma renders_refl w : renders w w [].
Proof.
  unfold renders, same_control. rewrite app_nil_r.
  repeat split; try done. exists []. by rewrite app_nil_r.
Qed.

Lemma renders_trans w1 w2 w3 rows1 rows2 :
  renders w1 w2 rows1 -> renders w2 w3 rows2 -> renders w1 w3 (rows1 ++ rows2).
Proof.
  intros (C1 & T1 & es1 & E1 & R1 & F1) (C2 & T2 & es2 & E2 & R2 & F2).
  unfold renders, same_control in *.
  rewrite T2, T1, E2, E1, <- !app_assoc.
  repeat split; try (by intuition congruence).
  exists (es1 ++ es2). rewrite rows_of_app, R1, R2.
  split; [done|]. split; [done|]. by apply Forall_app.
Qed.

Lemma renders_heap w h : renders w (set_heap h w) [].
Proof.
  unfold renders, same_control. simpl. rewrite app_nil_r.
  repeat split; try done. exists []. by rewrite app_nil_r.
Qed.

(** *** The internal fields are gone after lines 30 to 34 *)

Lemma delete_prop_keys k k' props :
  k ∈ map fst (delete_prop k' props) <-> k ∈ map fst props /\ k <> k'.
Proof.
  induction props as [|[a v] props IH]; simpl.
  - rewrite elem_of_nil. tauto.
  - destruct (String.eqb_spec k' a) as [->|Hne]; simpl;
      rewrite ?elem_of_cons, IH; naive_solver.
Qed.

Lemma digit_char_is_digit n : is_digit (ascii_of_nat (48 + n mod 10)) = true.
Proof.
  unfold is_digit. rewrite nat_ascii_embedding.
  - pose proof (Nat.mod_upper_bound n 10).
    apply andb_true_iff. split; apply Nat.leb_le; lia.
  - pose proof (Nat.mod_upper_bound n 10). lia.
Qed.

Lemma nat_digits_head fuel n acc :
  (0 < fuel \/ head_digit acc = true) -> head_digit (nat_digits fuel n acc) = true.
Proof.
  revert n acc. induction fuel as [|fuel IH]; intros n acc H; simpl.
  - destruct H; [lia|done].
  - destruct (n <? 10)%nat.
    + simpl. apply digit_char_is_digit.
    + apply IH. right. simpl. apply digit_char_is_digit.
Qed.

Lemma index_keys_head n k : k ∈ index_keys n -> head_digit k = true.
Proof.
  unfold index_keys. intros (i & -> & _)%list_elem_of_fmap.
  apply nat_digits_head. left. lia.
Qed.

Lemma internal_not_index n f : f ∈ internal_fields -> f ∉ index_keys n.
Proof.
  intros Hf Hin. apply index_keys_head in Hin.
  unfold internal_fields in Hf. rewrite !elem_of_cons, elem_of_nil in Hf.
  destruct Hf as [->|[->|[->|[->|[->|[]]]]]]; discriminate.
Qed.

Lemma strip_internal_free (v : value) : internal_free (strip_internal v).
Proof.
  intros f Hf. destruct v; simpl; unfold own_keys; simpl;
    try apply not_elem_of_nil; try by apply internal_not_index.
  rewrite KeyFacts.ordered_keys_elem, !delete_prop_keys.
  unfold internal_fields in Hf. rewrite !elem_of_cons, elem_of_nil in Hf.
  naive_solver.
Qed.

(** *** One entry, then a batch *)

Ltac close_render_effects :=
  repeat (apply List.Forall_cons;
          [ simpl;
            first [ done
                  | left; eexists; split; [reflexivity | apply strip_internal_free]
                  | left; eexists; split; [apply strip_internal_free | reflexivity]
                  | right; eauto 6 ]
          | ]);
  apply List.Forall_nil.

Ltac close_renders :=
  unfold renders, same_control; simpl;
  repeat split; try reflexivity; try (symmetry; apply app_nil_r);
  eexists; split;
  [ rewrite <- ?app_assoc; simpl; reflexivity
  | split; [reflexivity | close_render_effects] ].

(** An entry either gets its row, or the handler is left with an exception
    before the row is added. *)
Lemma render_entry_spec o ts w :
  (exists r, row_key r = ts /\ renders w (render_entry o ts w).2 [r])
  \/ (renders w (render_entry o ts w).2 [] /\ exists e, (render_entry o ts w).1 = inl e).
Proof.
  unfold render_entry, mbind, M_bind, lift, read, write, emit, modify, gets. simpl.
  destruct (lookup_loc ts o) as [l|]; simpl.
  2:{ right. split; [apply renders_refl|eauto]. }
  set (Message := default VUndefined (heap w !! l)).
  destruct (get Message "trigger") as [e|trigger]; simpl.
  { right. split; [apply renders_refl|eauto]. }
  destruct (get Message "error") as [e|error_]; simpl.
  { right. split; [apply renders_refl|eauto]. }
  destruct (get Message "log") as [e|log]; simpl.
  { right. split; [apply renders_refl|eauto]. }
  left. exists (row_of ts trigger error_ log). split; [done|].
  destruct (get (strip_internal Message) "from_") as [e|from_]; simpl.
  { close_renders. }
  destruct (get from_ "name") as [e|name]; simpl; [close_renders|].
  destruct (get from_ "email") as [e|email]; simpl; [close_renders|].
  destruct (get from_ "organization") as [e|organization]; simpl; [close_renders|].
  destruct (get from_ "geolocation") as [e|geolocation]; simpl; close_renders.
Qed.

Lemma for_each_render_spec o ks w :
  exists rows,
    renders w (for_each (render_entry o) ks w).2 rows
    /\ map row_key rows `prefix_of` ks
    /\ (forall u, (for_each (render_entry o) ks w).1 = inr u -> map row_key rows = ks).
Proof.
  revert w. induction ks as [|k ks IH]; intros w; simpl.
  - exists []. split; [apply renders_refl|]. split; [done|done].
  - unfold mbind, M_bind.
    destruct (render_entry_spec o k w) as [(r & Hk & Hr)|(Hr & e & He)];
      destruct (render_entry o k w) as [[e'|[]] w1] eqn:Hrun; simpl in *.
    + exists [r]. split; [done|]. split; [|done].
      simpl. rewrite Hk. by apply prefix_cons, prefix_nil.
    + destruct (IH w1) as (rows & Hrows & Hpre & Hall).
      exists (r :: rows). split; [apply (renders_trans _ _ _ [r] rows Hr Hrows)|].
      simpl. rewrite Hk. split; [by apply prefix_cons|].
      intros u Hu. by rewrite (Hall u Hu).
    + exists []. split; [done|]. split; [apply prefix_nil|done].
    + done.
Qed.

(** [append_log] adds rows for a prefix of the batch's keys in ascending
    order, for all of them when it returns, and touches nothing else. *)
Lemma append_log_spec o w :
  exists rows,
    renders w (append_log o w).2 rows
    /\ map row_key rows `prefix_of` sort_default (keys_of o)
    /\ (forall u, (append_log o w).1 = inr u ->
        map row_key rows = sort_default (keys_of o)).
Proof.
  unfold append_log, mbind, M_bind. fold (keys_of o).
  destruct (for_each_render_spec o (sort_default (keys_of o)) w)
    as (rows & Hrows & Hpre & Hall).
  destruct (for_each (render_entry o) (sort_default (keys_of o)) w)
    as [[e|[]] w1] eqn:Hrun; simpl in *.
  - exists rows. done.
  - exists rows. split; [|split; [done|intros; by apply (Hall ())]].
    unfold emit, modify. simpl.
    replace rows with (rows ++ []) by apply app_nil_r.
    apply (renders_trans _ _ _ rows [] Hrows). close_renders.
Qed.

Lemma append_log_keys o w k :
  k ∈ map row_key (drop (length (table w)) (table (append_log o w).2)) ->
  k ∈ map fst o.
Proof.
  destruct (append_log_spec o w) as (rows & (_ & Ht & _) & Hpre & _).
  rewrite Ht, drop_app_length. intros Hk.
  eapply KeyFacts.ordered_keys_elem. fold (keys_of o).
  rewrite <- (KeyFacts.sort_default_perm (keys_of o)).
  destruct Hpre as [tl ->]. apply elem_of_app. by left.
Qed.

End RenderFacts.

(** ** Invariants of a page session *)

Module SessionFacts.
Import JS Str History Terms RenderFacts KeyFacts.

Lemma renders_eq w w' rows :
  renders w w' rows ->
  exists h es,
    w' = World (log_backup w) (user_status_backup w) h (table w ++ rows)
               (load_more_visible w) (load_more_handlers w) (requests w)
               (timers w) (effects w ++ es)
    /\ rows_of es = rows /\ Forall render_effect es.
Proof.
  intros ((? & ? & ? & ? & ? & ?) & ? & es & ? & ? & ?).
  exists (heap w'), es. destruct w'; simpl in *. by subst.
Qed.


Lemma deltas_fresh_render seen es :
  Forall render_effect es -> deltas_fresh seen es.
Proof.
  intros H. revert seen. induction H as [|e es He _ IH]; intros seen; simpl; [done|].
  destruct e; simpl in *; try done; apply IH.
Qed.


Lemma pick_keys ks o k : k ∈ map fst (pick ks o) -> k ∈ ks /\ k ∈ map fst o.
Proof.
  unfold pick. intros ([k' l] & -> & Hin)%list_elem_of_fmap.
  apply list_elem_of_omap in Hin as (x & Hx & Hf).
  destruct (lookup_loc x o) as [l'|] eqn:Hl; [|done]. injection Hf as <- <-.
  split; [done|]. simpl. clear Hx. induction o as [|[a b] o IH]; simpl in *; [done|].
  destruct (String.eqb_spec x a) as [->|]; [apply elem_of_cons; by left|].
  apply elem_of_cons. right. auto.
Qed.




(** The keys a batch renders, all distinct. *)
Lemma batch_prefix_keys (ks : list string) o k :
  ks `prefix_of` sort_default (keys_of o) -> k ∈ ks -> k ∈ map fst o.
Proof.
  intros [tl Htl] Hk. eapply ordered_keys_elem. fold (keys_of o).
  rewrite <- (sort_default_perm (keys_of o)), Htl. apply elem_of_app. by left.
Qed.

Lemma batch_prefix_NoDup (ks : list string) o :
  ks `prefix_of` sort_default (keys_of o) -> NoDup ks.
Proof.
  intros [tl Htl].
  assert (NoDup (sort_default (keys_of o))) as Hnd.
  { rewrite sort_default_perm. apply ordered_keys_NoDup. }
  rewrite Htl in Hnd. by apply NoDup_app in Hnd as [? _].
Qed.

Lemma alloc_entries_spec v keys w :
  exists h,
    (alloc_entries v keys w).2 = set_heap h w
    /\ forall o, (alloc_entries v keys w).1 = inr o -> map fst o = keys.
Proof.
  revert w. induction keys as [|k keys IH]; intros w; simpl.
  - exists (heap w). split; [by destruct w|]. intros o [= <-]. done.
  - unfold mbind, M_bind, lift, alloc. simpl.
    destruct (get v k) as [e|x]; simpl.
    { exists (heap w). split; [by destruct w|done]. }
    destruct (IH (set_heap (heap w ++ [x]) w)) as (h & Hw & Ho).
    destruct (alloc_entries v keys (set_heap (heap w ++ [x]) w)) as [[e|o] w1];
      simpl in *; subst w1; exists h; (split; [done|]); [done|].
    intros o' [= <-]. simpl. by rewrite (Ho o).
Qed.








Lemma tame_calm e : tame e -> calm e.
Proof. by destruct e. Qed.


Lemma tame_clean e : tame e -> clean e.
Proof. by destruct e. Qed.

Lemma calm_clean e : calm e -> clean e.
Proof. by destruct e. Qed.

Lemma render_effect_tame e : render_effect e -> tame e.
Proof. by destruct e. Qed.


Lemma ordered_keys_length l : length (ordered_keys l) <= length l.
Proof.
  rewrite ordered_keys_perm. induction l as [|a l IH]; simpl; [done|].
  pose proof (length_filter (fun k' => k' <> a) (dedup_keys l)). lia.
Qed.

Lemma sort_default_length l : length (sort_default l) = length l.
Proof. by rewrite sort_default_perm. Qed.

Lemma pick_length ks o : length (pick ks o) <= length ks.
Proof.
  unfold pick. induction ks as [|k ks IH]; csimpl; [done|].
  destruct (lookup_loc k o); csimpl; lia.
Qed.

Lemma batch_facts (ks sel : list string) o :
  ks `prefix_of` sort_default (keys_of (pick sel o)) ->
  NoDup ks /\ (forall k, k ∈ ks -> k ∈ sel /\ k ∈ map fst o) /\ length ks <= length sel.
Proof.
  intros Hpre. split; [by eapply batch_prefix_NoDup|]. split.
  - intros k Hk. apply pick_keys. by eapply batch_prefix_keys.
  - apply prefix_length in Hpre. rewrite sort_default_length in Hpre.
    unfold keys_of in Hpre. pose proof (ordered_keys_length (map fst (pick sel o))).
    rewrite length_map in *. pose proof (pick_length sel o). lia.
Qed.

Section Steps.

Variable sort_with : (string -> string -> Z) -> list string -> list string.

Lemma first_load_post_idle v w e h : first_load_post v w (inl e) (set_heap h w).
Proof.
  exists h, [], [], (load_more_visible w), (load_more_handlers w).
  rewrite !app_nil_r. split; [done|]. split; [done|]. split; [constructor|].
  split; [constructor|]. split; [apply list_subseteq_nil|]. split; [simpl; lia|done].
Qed.

Lemma first_load_spec v w :
  first_load_post v w (first_load sort_with v w).1 (first_load sort_with v w).2.
Proof.
  unfold first_load, mbind, M_bind, lift, emit, modify, gets. simpl.
  destruct (Object_keys v) as [e|keys] eqn:Hkeys; simpl.
  { replace w with (set_heap (heap w) w) at 2 by (by destruct w).
    apply first_load_post_idle. }
  destruct (alloc_entries_spec v keys w) as (h1 & Hw1 & Ho).
  destruct (alloc_entries v keys w) as [[e|msg_log] w1]; simpl in *; subst w1.
  { apply first_load_post_idle. }
  specialize (Ho msg_log eq_refl).
  set (recent := slice_last 10 (sort_with gt_comparefn keys)).
  destruct (append_log_spec (pick recent msg_log) (set_heap h1 w))
    as (rows & Hr & Hpre & Hall).
  apply renders_eq in Hr as (h2 & es & Hw2 & Hrows & Hes).
  destruct (append_log (pick recent msg_log) (set_heap h1 w)) as [[e|[]] w2];
    simpl in *; subst w2; simpl.
  all: destruct (batch_facts _ _ _ Hpre) as (Hnd & Hin & Hlen).
  all: assert (map row_key rows ⊆ own_keys v) as Hsub
    by (intros k Hk; unfold own_keys; rewrite Hkeys, <- Ho; by apply Hin).
  all: assert (length rows <= 10) as Hten
    by (rewrite length_map in Hlen; pose proof (slice_last_length 10 (sort_with gt_comparefn keys));
        fold recent in H; lia).
  - exists h2, rows, es, (load_more_visible w), (load_more_handlers w).
    repeat (split; [done|]). split; [|done].
    eapply Forall_impl; [exact Hes|apply render_effect_tame].
  - exists h2, rows, (es ++ [Load_more_shown]), true,
      (load_more_handlers w ++ [Closure msg_log recent]).
    rewrite <- app_assoc. split; [done|].
    split; [rewrite rows_of_app, Hrows; simpl; apply app_nil_r|].
    split.
    { apply Forall_app. split; [|by repeat constructor].
      eapply Forall_impl; [exact Hes|apply render_effect_tame]. }
    repeat (split; [done|]).
    eexists. split; [done|]. simpl. split.
    + intros k Hk. unfold own_keys. rewrite Hkeys, <- Ho.
      exact (proj1 (ordered_keys_elem _ _) Hk).
    + intros k Hk Hrow. apply not_in_elem in Hk as [_ Hk]. simpl in Hk.
      apply Hk. by apply Hin.
Qed.

Lemma later_load_post_idle b v w e h : later_load_post b v w (inl e) (set_heap h w).
Proof.
  exists h, [], []. rewrite !app_nil_r. split; [done|]. split; [done|].
  split; [constructor|]. split; [constructor|]. split; [|done].
  intros k Hk. simpl in Hk. by apply elem_of_nil in Hk.
Qed.

Lemma later_load_spec b v w :
  later_load_post b v w (later_load b v w).1 (later_load b v w).2.
Proof.
  unfold later_load, new_msg_key, mbind, M_bind, lift, emit, modify, gets. simpl.
  assert (w = set_heap (heap w) w) as Hw by (by destruct w).
  destruct (JSON.parse (if (b =? "")%string then "{}" else b))
    as [e|old_log] eqn:Hold; simpl.
  { rewrite Hw at 2. apply later_load_post_idle. }
  destruct (Object_keys v) as [e|keys] eqn:Hkeys; simpl.
  { rewrite Hw at 2. apply later_load_post_idle. }
  destruct (alloc_entries_spec v keys w) as (h1 & Hw1 & Ho).
  destruct (alloc_entries v keys w) as [[e|msg_log] w1]; simpl in *; subst w1.
  { apply later_load_post_idle. }
  specialize (Ho msg_log eq_refl).
  destruct (Object_keys old_log) as [e|old_keys] eqn:Hold_keys; simpl.
  { apply later_load_post_idle. }
  assert (payload_keys b = old_keys) as Hb.
  { unfold payload_keys, own_keys.
    destruct (String.eqb_spec b "") as [->|_]; [|by rewrite Hold, Hold_keys].
    vm_compute in Hold. injection Hold as <-. vm_compute in Hold_keys.
    by injection Hold_keys as <-. }
  set (new_keys := not_in keys old_keys).
  destruct (append_log_spec (pick new_keys msg_log)
              (set_effects (effects w ++ [Diffed new_keys]) (set_heap h1 w)))
    as (rows & Hr & Hpre & Hall).
  apply renders_eq in Hr as (h2 & es & Hw2 & Hrows & Hes).
  destruct (batch_facts _ _ _ Hpre) as (Hnd & Hin & Hlen).
  assert (later_load_post b v w
            (append_log (pick new_keys msg_log)
               (set_effects (effects w ++ [Diffed new_keys]) (set_heap h1 w))).1
            (append_log (pick new_keys msg_log)
               (set_effects (effects w ++ [Diffed new_keys]) (set_heap h1 w))).2)
    as Hpost.
  { rewrite Hw2. simpl. exists h2, rows, (Diffed new_keys :: es).
    rewrite <- app_assoc. split; [done|]. split; [done|].
    split.
    { constructor; [done|]. eapply Forall_impl; [exact Hes|].
      intros e He. by apply tame_calm, render_effect_tame. }
    split; [done|]. split.
    - intros k Hk. destruct (Hin k Hk) as [Hnew _].
      apply not_in_elem in Hnew as [Hk1 Hk2].
      unfold own_keys. by rewrite Hkeys, Hb.
    - intros seen Hseen. simpl. split.
      + intros k Hk Hs. apply not_in_elem in Hk as [_ Hk]. apply Hk.
        rewrite <- Hb. by apply Hseen.
      + apply deltas_fresh_render. done. }
  destruct (append_log (pick new_keys msg_log)
              (set_effects (effects w ++ [Diffed new_keys]) (set_heap h1 w)))
    as [[e|[]] w2]; simpl in *; done.
Qed.

Lemma update_status_spec res w :
  exists es,
    update_status res w
    = (inr tt,
       World (log_backup w) (user_status_msg res) (heap w) (table w)
             (load_more_visible w) (load_more_handlers w) (requests w)
             (timers w) (effects w ++ es))
    /\ rows_of es = [] /\ Forall tame es.
Proof.
  unfold update_status, mbind, M_bind, emit, modify, gets. simpl.
  destruct (negb (user_status_backup w =? user_status_msg res)%string); simpl.
  - eexists [_; _]. rewrite <- app_assoc. simpl. split; [done|].
    split; [done|]. by repeat constructor.
  - eexists [_]. split; [done|]. split; [done|]. by repeat constructor.
Qed.








(** *** Every event only adds rows and effects *)

Lemma extends_refl w : extends w w.
Proof. split; [done|]. exists []. by rewrite app_nil_r. Qed.

Lemma extends_trans w1 w2 w3 : extends w1 w2 -> extends w2 w3 -> extends w1 w3.
Proof.
  intros (T1 & e1 & E1 & C1) (T2 & e2 & E2 & C2). split; [by etrans|].
  exists (e1 ++ e2). rewrite E2, E1, <- app_assoc. split; [done|].
  by apply Forall_app.
Qed.

Lemma steady_ret {A} (a : A) : steady (mret a).
Proof. intros w. apply extends_refl. Qed.

Lemma steady_bind {A B} (m : M A) (f : A -> M B) :
  steady m -> (forall a, steady (f a)) -> steady (m ≫= f).
Proof.
  intros Hm Hf w. unfold mbind, M_bind. specialize (Hm w).
  destruct (m w) as [[e|a] w1]; simpl in *; [done|].
  eapply extends_trans; [exact Hm|apply Hf].
Qed.

Lemma steady_lift {A} (r : error + A) : steady (lift r).
Proof. intros w. apply extends_refl. Qed.

Lemma steady_gets {A} (f : world -> A) : steady (gets f).
Proof. intros w. apply extends_refl. Qed.

Lemma steady_emit e : clean e -> steady (emit e).
Proof.
  intros He w. split; [done|]. exists [e]. split; [done|]. by constructor.
Qed.

Lemma steady_modify f :
  (forall w, table (f w) = table w /\ effects (f w) = effects w) ->
  steady (modify f).
Proof.
  intros Hf w. destruct (Hf w) as [Ht He]. unfold modify. simpl.
  split; [by rewrite Ht|]. exists []. by rewrite He, app_nil_r.
Qed.

Lemma steady_alloc_entries v keys : steady (alloc_entries v keys).
Proof.
  intros w. destruct (alloc_entries_spec v keys w) as (h & -> & _).
  split; [done|]. exists []. simpl. by rewrite app_nil_r.
Qed.

Lemma steady_append_log o : steady (append_log o).
Proof.
  intros w. destruct (append_log_spec o w) as (rows & (_ & Ht & es & He & _ & Hes) & _).
  split; [rewrite Ht; by apply prefix_app_r|]. exists es. split; [done|].
  eapply Forall_impl; [exact Hes|]. intros e. by destruct e.
Qed.

Lemma steady_for_each {A} (f : A -> M unit) l :
  (forall a, steady (f a)) -> steady (for_each f l).
Proof.
  intros Hf. induction l as [|a l IH]; simpl; [apply steady_ret|].
  apply steady_bind; [apply Hf|]. intros _. apply IH.
Qed.

Ltac steady_step :=
  first [ apply steady_ret | apply steady_lift | apply steady_gets
        | apply steady_alloc_entries | apply steady_append_log
        | apply steady_emit; done
        | apply steady_modify; intros ?; by split
        | apply steady_bind; [|intros ?] ].

Lemma steady_load_more_clicked c : steady (load_more_clicked c).
Proof. unfold load_more_clicked. repeat steady_step. Qed.

Lemma steady_fetch_log_done res : steady (fetch_log_done sort_with res).
Proof.
  unfold fetch_log_done. repeat steady_step.
  destruct (status res); repeat steady_step.
  unfold update_log, update_status. repeat steady_step.
  - destruct (negb _); repeat steady_step.
    destruct (String.eqb _ ""); unfold first_load, later_load, new_msg_key;
      repeat steady_step.
  - destruct (negb _); repeat steady_step.
Qed.

Lemma run_handler_extends from (m : M unit) w :
  steady m -> extends w (run_handler from m w).
Proof.
  intros Hm. unfold run_handler. specialize (Hm w).
  destruct (m w) as [[e|[]] w1]; simpl in *; [|done].
  eapply extends_trans; [exact Hm|]. split; [done|].
  exists [Uncaught from e]. split; [done|]. by constructor.
Qed.

Lemma step_extends w ev : extends w (step sort_with w ev).
Proof.
  assert (forall w' es, table w' = table w -> effects w' = effects w ++ es ->
                        Forall clean es -> extends w w') as Hq.
  { intros w' es Ht He Hes. split; [by rewrite Ht|]. by exists es. }
  destruct ev as [|res| |]; simpl.
  - destruct (timers w); [apply extends_refl|].
    by apply (Hq _ [Post "/fetch_execution_log"]); try repeat constructor.
  - destruct (requests w) as [|n]; [apply extends_refl|].
    eapply extends_trans; [|apply run_handler_extends, steady_fetch_log_done].
    apply (Hq _ []); simpl; by rewrite ?app_nil_r.
  - destruct (requests w) as [|n]; [apply extends_refl|].
    eapply extends_trans; [|apply run_handler_extends, steady_emit; done].
    apply (Hq _ []); simpl; by rewrite ?app_nil_r.
  - destruct (load_more_visible w); [|apply extends_refl].
    apply run_handler_extends, steady_for_each, steady_load_more_clicked.
Qed.

Lemma run_extends w evs : extends w (run sort_with w evs).
Proof.
  revert w. induction evs as [|ev evs IH]; intros w; simpl; [apply extends_refl|].
  eapply extends_trans; [apply step_extends|apply IH].
Qed.

(** *** The accepted payload *)



(** *** Whole sessions *)

Lemma append_only_from_weaken K K' ps :
  K' ⊆ K -> append_only_from K ps -> append_only_from K' ps.
Proof.
  destruct ps as [|p ps]; simpl; [done|]. intros HK [Hp Hps].
  split; [by etrans|done].
Qed.





(** *** How a response ends *)

(** The callback either returns, having set the next timer and, on [status]
    true, made the payload the baseline; or it is left with an exception,
    with no timer set and the baseline as it was. *)
Lemma response_outcome w res n :
  requests w = S n ->
  let w' := step sort_with w (Response_arrived res) in
  requests w' = n
  /\ ((timers w' = S (timers w)
       /\ (status res = true -> log_backup w' = imap_log res)
       /\ (status res = false -> log_backup w' = log_backup w)
       /\ forall e, Uncaught Success_callback e ∉ drop (length (effects w)) (effects w'))
      \/ (timers w' = timers w /\ log_backup w' = log_backup w
          /\ status res = true /\ log_backup w <> imap_log res
          /\ exists e es, effects w' = effects w ++ Parsed (imap_log res) :: es
                                       ++ [Uncaught Success_callback e])).
Proof.
  intros Hreq. simpl. rewrite Hreq.
  unfold run_handler, fetch_log_done, mbind, M_bind, emit, modify. simpl.
  destruct (status res) eqn:Hst; simpl.
  2:{ split; [done|]. left. repeat split; try done.
      intros e. rewrite <- app_assoc, drop_app_length. simpl.
      rewrite !not_elem_of_cons. repeat split; try done. apply not_elem_of_nil. }
  unfold update_log, mbind, M_bind, lift, emit, modify, gets. simpl.
  assert (forall es, Forall calm es -> forall x, Uncaught Success_callback x ∉ es)
    as Hcalm_no.
  { intros es Hes x Hx. rewrite Forall_forall in Hes. by apply Hes in Hx. }
  assert (forall es, Forall tame es -> forall x, Uncaught Success_callback x ∉ es)
    as Htame_no.
  { intros es Hes. apply Hcalm_no. eapply Forall_impl; [exact Hes|apply tame_calm]. }
  destruct (update_status_spec res
              (set_log_backup (imap_log res) (set_requests n w)))
    as (es0 & Hst0 & _ & Htame0).
  destruct (String.eqb_spec (log_backup w) (imap_log res)) as [Heq|Hne]; simpl.
  { rewrite Hst0. simpl. split; [done|]. left. repeat split; try done.
    intros e. rewrite <- app_assoc, drop_app_length. rewrite not_elem_of_app.
    split; [by apply Htame_no|]. rewrite not_elem_of_cons. split; [done|apply not_elem_of_nil]. }
  set (w1 := set_effects (effects w ++ [Parsed (imap_log res)]) (set_requests n w)).
  destruct (JSON.parse (imap_log res)) as [e|v] eqn:Hparse; simpl.
  { split; [done|]. right. repeat split; try done. exists e, [].
    by rewrite <- app_assoc. }
  destruct (String.eqb_spec (log_backup w) "") as [Hb|Hb]; simpl.
  - destruct (first_load_spec v w1)
      as (h & rows & es & visible & handlers & Hw' & _ & Htame & _).
    destruct (first_load sort_with v w1) as [[e|[]] w2]; simpl in *; subst w2; simpl.
    { split; [done|]. right. repeat split; try done. exists e, es.
      by rewrite <- !app_assoc. }
    match goal with |- context [update_status res ?w3] =>
      destruct (update_status_spec res w3) as (es1 & -> & _ & Htame1) end.
    simpl. split; [done|]. left. repeat split; try done.
    intros e. rewrite <- !app_assoc, drop_app_length. simpl.
    rewrite not_elem_of_cons, !not_elem_of_app, not_elem_of_cons.
    repeat split; try done; try (by apply Htame_no); try apply not_elem_of_nil.
  - destruct (later_load_spec (log_backup w) v w1)
      as (h & rows & es & Hw' & _ & Hclean & _).
    destruct (later_load (log_backup w) v w1) as [[e|[]] w2]; simpl in *; subst w2; simpl.
    { split; [done|]. right. repeat split; try done. exists e, es.
      by rewrite <- !app_assoc. }
    match goal with |- context [update_status res ?w3] =>
      destruct (update_status_spec res w3) as (es1 & -> & _ & Htame1) end.
    simpl. split; [done|]. left. repeat split; try done.
    intros e. rewrite <- !app_assoc, drop_app_length. simpl.
    rewrite not_elem_of_cons, !not_elem_of_app, not_elem_of_cons.
    repeat split; try done; try (by apply Htame_no); try (by apply Hcalm_no);
      try apply not_elem_of_nil.
Qed.

(** *** A first load that returns, and the click after it *)



(** *** Single ticks *)



(** A response whose payload differs from the baseline and does not decode:
    the callback is left at line 83. *)
Lemma response_undecodable w res n e :
  requests w = S n -> status res = true -> log_backup w <> imap_log res ->
  JSON.parse (imap_log res) = inl e ->
  step sort_with w (Response_arrived res)
  = World (log_backup w) (user_status_backup w) (heap w) (table w)
          (load_more_visible w) (load_more_handlers w) n (timers w)
          (effects w ++ [Parsed (imap_log res); Uncaught Success_callback e]).
Proof.
  intros Hreq Hst Hne Hparse. simpl. rewrite Hreq.
  unfold run_handler, fetch_log_done, update_log, mbind, M_bind, lift, emit,
    modify, gets. simpl.
  rewrite Hst. simpl.
  destruct (String.eqb_spec (log_backup w) (imap_log res)) as [Heq|_]; [done|]. simpl.
  rewrite Hparse. simpl. unfold set_effects. simpl. by rewrite <- app_assoc.
Qed.

(** A response with [status] false. *)
Lemma response_refused w res n :
  requests w = S n -> status res = false ->
  step sort_with w (Response_arrived res)
  = World (log_backup w) (user_status_backup w) (heap w) (table w)
          (load_more_visible w) (load_more_handlers w) n (S (timers w))
          (effects w ++ [Notified false; Timeout_set 2000]).
Proof.
  intros Hreq Hst. simpl. rewrite Hreq.
  unfold run_handler, fetch_log_done, mbind, M_bind, emit, modify. simpl.
  rewrite Hst. simpl. unfold set_effects. simpl. by rewrite <- app_assoc.
Qed.



(** With no request in flight and no timer pending, no poll event happens. *)
Lemma halted_stays w evs :
  halted w -> Load_more_click ∉ evs -> run sort_with w evs = w.
Proof.
  intros [Hr Ht]. induction evs as [|ev evs IH]; [done|].
  intros [Hev Hevs]%not_elem_of_cons. simpl.
  destruct ev; simpl; rewrite ?Hr, ?Ht; try by apply IH. done.
Qed.

End Steps.





End SessionFacts.

(** ** The display order *)

Module TableFacts.
Import History Table.




End TableFacts.

(** * The claims *)

Import JS Str History Terms RenderFacts SessionFacts.



(** Why C1 speaks of poll ticks: a click handler that is left with an
    exception (see C8) has not hidden the button, and a second click adds the
    row of the same key again. *)
Lemma second_click_after_a_failed_click_repeats_a_row :
  let evs := [ Response_arrived (Response true Inputs.log_with_bare_first "");
               Load_more_click; Load_more_click ] in
  append_only evs
  /\ rendered (session Engine.timsort evs)
     = drop 1 Inputs.eleven_keys
       ++ ["1/1/2024, 9:00:10 AM"; "1/1/2024, 9:00:10 AM"].
Proof.
  split; [|vm_compute; reflexivity].
  unfold append_only. simpl. split; [|done].
  intros k Hk. by apply elem_of_nil in Hk.
Qed.



(** C9.  Whatever the session, every object handed to the detail panel of an
    entry is the entry without its five internal fields [trigger], [error],
    [log], [timestamp] and [type], and every preview text of an entry is
    built from such an object, so from fields other than those five.  (The
    only other panel data and preview text are those of the contact.) *)
Theorem internal_fields_never_reach_the_panels sort_with evs :
  Forall (fun e =>
            match e with
            | Jsonpanel _ data =>
                (exists m, data = VObj [("Message", m)]
                           /\ forall f, f ∈ internal_fields -> f ∉ own_keys m)
                \/ (exists c, data = VObj [("Contact", c)])
            | Set_text _ text =>
                (exists m, (forall f, f ∈ internal_fields -> f ∉ own_keys m)
                           /\ text = preview_msg m
                           /\ map fst (preview_fields m) = own_keys m)
                \/ (exists a b c d, text = contact_preview a b c d)
            | _ => True
            end)
         (effects (session sort_with evs)).
Proof.
  destruct (run_extends sort_with (fetch_log page_loaded) evs)
    as (_ & es & Hes & Hclean).
  unfold session. rewrite Hes. apply Forall_app. split; [by repeat constructor|].
  eapply Forall_impl; [exact Hclean|]. intros [] He; simpl in *; try done.
  destruct He as [(m & Hm & ->)|He]; [left|by right].
  exists m. split; [done|]. split; [done|].
  unfold preview_fields. rewrite map_map. simpl. apply map_id.
Qed.

(** C3, at a first snapshot of eleven entries on V8's sort.  The comparison
    function of line 87 never returns a negative number, so the sort leaves
    the keys as the server listed them and [slice(-10)] drops the first one
    listed, here the greatest key: the ten rows of the first load are the
    ten smallest keys.  The load-more click then renders the one key left and
    hides the button, and a further click does nothing. *)
Theorem first_load_misses_the_greatest_key :
  let w := session Engine.timsort [Inputs.first_response] in
  payload_keys (Inputs.log_of Inputs.eleven_keys) = Inputs.eleven_keys
  /\ forallb (fun k => String.leb k "1/1/2024, 9:00:10 AM") Inputs.eleven_keys = true
  /\ rendered w = drop 1 Inputs.eleven_keys
  /\ load_more_visible w = true
  /\ rendered (step Engine.timsort w Load_more_click)
     = drop 1 Inputs.eleven_keys ++ ["1/1/2024, 9:00:10 AM"]
  /\ run Engine.timsort w [Load_more_click; Load_more_click]
     = step Engine.timsort w Load_more_click.
Proof. vm_compute. repeat split. Qed.

(** The same snapshot on an engine whose sort only asks whether the
    comparison function returned a positive number: there the first load
    does render the ten greatest keys. *)
Lemma first_load_on_a_positive_only_sort :
  rendered (session Engine.insertion_sort [Inputs.first_response])
  = [ "1/1/2024, 9:00:01 AM"; "1/1/2024, 9:00:02 AM"; "1/1/2024, 9:00:03 AM";
      "1/1/2024, 9:00:04 AM"; "1/1/2024, 9:00:05 AM"; "1/1/2024, 9:00:06 AM";
      "1/1/2024, 9:00:07 AM"; "1/1/2024, 9:00:08 AM"; "1/1/2024, 9:00:09 AM";
      "1/1/2024, 9:00:10 AM" ].
Proof. vm_compute. reflexivity. Qed.

(** C4, at the spec's own three timestamps and one more.  The ordering
    column holds the date alone, compared as text: the last day of 2023 is
    shown above the days of 2024, and the two entries of January 1st stay in
    the order they were added, the earlier above the later. *)
Theorem display_is_not_newest_first :
  let w := session Engine.timsort
             [Response_arrived (Response true (Inputs.log_of Inputs.four_keys) "")] in
  map row_key (Table.display (table w))
  = [ "12/31/2023, 11:59:59 PM"; "1/2/2024, 9:00:00 AM";
      "1/1/2024, 1:00:00 PM"; "1/1/2024, 2:00:00 PM" ]
  /\ map Table.first_cell (Table.display (table w))
     = [ "12/31/2023"; "1/2/2024"; "1/1/2024"; "1/1/2024" ]
  /\ Chrono.newest_first (map row_key (Table.display (table w))) = false
  /\ Chrono.newest_first
       [ "1/2/2024, 9:00:00 AM"; "1/1/2024, 2:00:00 PM";
         "1/1/2024, 1:00:00 PM"; "12/31/2023, 11:59:59 PM" ] = true.
Proof. vm_compute. repeat split. Qed.

(** However the widget compares the cells of the ordering column, two rows
    of one day are shown in the order they were added. *)
Lemma same_day_rows_keep_insertion_order cmp r1 r2 :
  Table.first_cell r1 = Table.first_cell r2 ->
  cmp (Table.first_cell r2) (Table.first_cell r2) = Eq ->
  Table.display_with cmp [r1; r2] = [r1; r2].
Proof. intros H12 Hrefl. unfold Table.display_with. simpl. by rewrite H12, Hrefl. Qed.

(** C8, at a log whose earlier entry has no [from_].  Its row is added, then
    line 45 reads [name] of [undefined] and throws: no preview text is set
    for it, the later entry is never rendered, the baseline is not recorded
    and no next poll is scheduled. *)
Theorem entry_without_contact_aborts_the_batch :
  let w := session Engine.timsort
             [Response_arrived (Response true Inputs.log_without_contact "")] in
  payload_keys Inputs.log_without_contact
  = ["1/1/2024, 1:00:00 PM"; "1/1/2024, 2:00:00 PM"]
  /\ rendered w = ["1/1/2024, 1:00:00 PM"]
  /\ last (effects w) = Some (Uncaught Success_callback TypeError)
  /\ omap Inputs.text_set (effects w) = []
  /\ log_backup w = ""%string
  /\ requests w = 0 /\ timers w = 0.
Proof. vm_compute. repeat split. Qed.

(** What line 45 writes when [from_] is there: the four sub-fields in the
    order name, email, organization, geolocation, a missing one reading
    [undefined]. *)
Lemma contact_preview_of_partial_contact :
  let from_ := VObj [("email", VStr "a@b.c"); ("name", VStr "Ann")] in
  contact_preview (field from_ "name") (field from_ "email")
                  (field from_ "organization") (field from_ "geolocation")
  = JSON.dq "'Ann', 'a@b.c', 'undefined', 'undefined', ".
Proof. vm_compute. reflexivity. Qed.



(** C6, as stated, fails in the editor view: after a failed request nothing
    was shown to the user, the timer set when the request was sent is still
    pending, and when it fires the next request goes out. *)
Lemma editor_poll_survives_transport_failure :
  Editor.effects (Editor.session [Editor.Request_failed])
  = [Editor.Post "/fetch_execution_log"; Editor.Timeout_set 5000]
  /\ Editor.timers (Editor.session [Editor.Request_failed]) = 1
  /\ Editor.effects (Editor.session [Editor.Request_failed; Editor.Timer_fired])
     = [ Editor.Post "/fetch_execution_log"; Editor.Timeout_set 5000;
         Editor.Post "/fetch_execution_log"; Editor.Timeout_set 5000 ].
Proof. vm_compute. repeat split. Qed.

(** C6, amended.  In the history view a failed request alerts the user and
    sets no timer, so that with no other request in flight no poll event
    follows.  In the editor view a failed request changes nothing but the
    count of requests in flight: nothing is shown, and the timer that
    [fetch_log] set when it sent the request stays pending. *)
Theorem transport_failure_in_each_view sort_with w (v : Editor.world) n m :
  requests w = S n -> Editor.requests v = S m ->
  step sort_with w Request_failed
  = World (log_backup w) (user_status_backup w) (heap w) (table w)
          (load_more_visible w) (load_more_handlers w) n (timers w)
          (effects w ++ [Alerted "Please refresh the page!"])
  /\ (n = 0 -> timers w = 0 ->
      forall evs, Load_more_click ∉ evs ->
                  run sort_with (step sort_with w Request_failed) evs
                  = step sort_with w Request_failed)
  /\ Editor.step v Editor.Request_failed
     = Editor.World (Editor.log_backup v) m (Editor.timers v) (Editor.effects v)
  /\ Editor.timers (Editor.fetch_log v) = S (Editor.timers v).
Proof.
  intros Hreq Hreq'.
  assert (step sort_with w Request_failed
          = World (log_backup w) (user_status_backup w) (heap w) (table w)
                  (load_more_visible w) (load_more_handlers w) n (timers w)
                  (effects w ++ [Alerted "Please refresh the page!"])) as Hstep.
  { simpl. by rewrite Hreq. }
  split; [done|]. split.
  - intros -> Htim evs Hevs. apply halted_stays; [|done].
    rewrite Hstep. by split.
  - simpl. by rewrite Hreq'.
Qed.

Lemma transport_failure_in_each_view_witness :
  requests (fetch_log page_loaded) = 1
  /\ Editor.requests (Editor.session []) = 1
  /\ effects (step Engine.timsort (fetch_log page_loaded) Request_failed)
     = [Post "/fetch_execution_log"; Alerted "Please refresh the page!"]
  /\ Editor.step (Editor.session []) Editor.Request_failed
     = Editor.World "" 0 1 [Editor.Post "/fetch_execution_log"; Editor.Timeout_set 5000].
Proof.
  destruct (transport_failure_in_each_view Engine.timsort (fetch_log page_loaded)
              (Editor.session []) 0 0 eq_refl eq_refl) as (H1 & _ & H2 & _).
  split; [reflexivity|]. split; [reflexivity|].
  split; [by rewrite H1|by rewrite H2].
Defined.

(** C7, as stated, fails at a payload that is not JSON: the exception leaves
    the callback, nothing is shown to the user, and no timer is set, so the
    loop has stopped rather than skipped a tick. *)
Lemma undecodable_payload_stops_the_loop :
  let w := session Engine.timsort [Response_arrived (Response true "{" "")] in
  JSON.parse "{" = inl SyntaxError
  /\ effects w = [ Post "/fetch_execution_log"; Parsed "{";
                   Uncaught Success_callback SyntaxError ]
  /\ requests w = 0 /\ timers w = 0
  /\ run Engine.timsort w
       [Timer_fired; Response_arrived (Response true Inputs.payload_AB "")] = w.
Proof. vm_compute. repeat split. Qed.

(** C7, amended.  A [status] true response whose payload differs from the
    baseline and does not decode ends the callback at line 83: the page is
    as before but for the trace of the attempt and of the exception, so
    nothing is rendered, the baseline stays and no timer is set.  A [status]
    false response takes another path: a notification, and the next timer. *)
Theorem undecodable_payload_ends_the_callback sort_with w n :
  requests w = S n ->
  (forall res e,
     status res = true -> log_backup w <> imap_log res ->
     JSON.parse (imap_log res) = inl e ->
     step sort_with w (Response_arrived res)
     = World (log_backup w) (user_status_backup w) (heap w) (table w)
             (load_more_visible w) (load_more_handlers w) n (timers w)
             (effects w ++ [Parsed (imap_log res); Uncaught Success_callback e]))
  /\ (forall res,
        status res = false ->
        step sort_with w (Response_arrived res)
        = World (log_backup w) (user_status_backup w) (heap w) (table w)
                (load_more_visible w) (load_more_handlers w) n (S (timers w))
                (effects w ++ [Notified false; Timeout_set 2000])).
Proof.
  intros Hreq. split.
  - intros res e. by apply response_undecodable.
  - intros res. by apply response_refused.
Qed.

Lemma undecodable_payload_ends_the_callback_witness :
  requests (fetch_log page_loaded) = 1
  /\ step Engine.timsort (fetch_log page_loaded)
          (Response_arrived (Response true "{" ""))
     = World "" "" [] [] false [] 0 0
             [ Post "/fetch_execution_log"; Parsed "{";
               Uncaught Success_callback SyntaxError ].
Proof.
  split; [reflexivity|].
  destruct (undecodable_payload_ends_the_callback Engine.timsort
              (fetch_log page_loaded) 0 eq_refl) as [H _].
  rewrite (H (Response true "{" "") SyntaxError); [done|done|discriminate|done].
Defined.




(** * Further properties of the scripts *)


(** ** Patterns: the derivative decides the language *)

Module RegexFacts.
Import JS Regex.

Lemma nullable_matches r : nullable r = true <-> matches r [].
Proof.
  induction r as [| |p|r1 IH1 r2 IH2|r1 IH1 r2 IH2|r IH]; simpl.
  - split; [done|]. intros H. inversion H.
  - split; [constructor|done].
  - split; [done|]. intros H. inversion H.
  - rewrite andb_true_iff, IH1, IH2. split.
    + intros [H1 H2]. by apply (matches_seq r1 r2 [] []).
    + intros H. inversion H as [| |? ? s1 s2 H1 H2 [Hr1 Hr2] Hs| | | |]; subst.
      apply app_eq_nil in Hs as [-> ->]. done.
  - rewrite orb_true_iff, IH1, IH2. split.
    + intros [H|H]; [by apply matches_or_l|by apply matches_or_r].
    + intros H. inversion H; subst; [by left|by right].
  - split; [constructor|done].
Qed.

Lemma matches_star_cons r c s :
  matches (Star r) (c :: s) ->
  exists s1 s2, s = s1 ++ s2 /\ matches r (c :: s1) /\ matches (Star r) s2.
Proof.
  intros H. remember (Star r) as r' eqn:Hr. remember (c :: s) as s' eqn:Hs.
  revert c s Hs.
  induction H as [| | | | | |r0 s1 s2 H1 _ H2 IH2]; try discriminate.
  injection Hr as ->. intros c s Hs.
  destruct s1 as [|c1 s1]; simpl in Hs.
  - by apply (IH2 eq_refl).
  - injection Hs as -> <-. by exists s1, s2.
Qed.

Lemma derive_matches c r s : matches (derive c r) s <-> matches r (c :: s).
Proof.
  revert s. induction r as [| |p|r1 IH1 r2 IH2|r1 IH1 r2 IH2|r IH]; intros s; simpl.
  - split; intros H; inversion H.
  - split; intros H; inversion H.
  - destruct (p c) eqn:Hp.
    + split; intros H; inversion H; subst; [by constructor|constructor].
    + split; intros H; inversion H; subst. congruence.
  - assert (matches (Seq (derive c r1) r2) s ->
            matches (Seq r1 r2) (c :: s)) as Hfirst.
    { intros H. inversion H as [| |? ? s1 s2 H1 H2| | | |]; subst.
      apply IH1 in H1. by apply (matches_seq r1 r2 (c :: s1) s2). }
    assert (matches (Seq r1 r2) (c :: s) ->
            matches (Seq (derive c r1) r2) s
            \/ (matches r1 [] /\ matches r2 (c :: s))) as Hsplit.
    { intros H. inversion H as [| |? ? s1 s2 H1 H2 [Hr1 Hr2] Hs| | | |]; subst.
      destruct s1 as [|c1 s1]; simpl in Hs.
      - right. subst s2. done.
      - injection Hs as -> <-. left. constructor; [by apply IH1|done]. }
    destruct (nullable r1) eqn:Hn.
    + split.
      * intros H. inversion H; subst; [by apply Hfirst|].
        apply (matches_seq r1 r2 [] (c :: s)); [by apply nullable_matches|].
        by apply IH2.
      * intros H. apply Hsplit in H as [H|[_ H]];
          [by apply matches_or_l|apply matches_or_r; by apply IH2].
    + split; [done|]. intros H. apply Hsplit in H as [H|[H _]]; [done|].
      apply nullable_matches in H. congruence.
  - split.
    + intros H. inversion H; subst;
        [apply matches_or_l; by apply IH1|apply matches_or_r; by apply IH2].
    + intros H. inversion H; subst;
        [apply matches_or_l; by apply IH1|apply matches_or_r; by apply IH2].
  - split.
    + intros H. inversion H as [| |? ? s1 s2 H1 H2| | | |]; subst.
      apply IH in H1. by apply (matches_star_more r (c :: s1) s2).
    + intros H. apply matches_star_cons in H as (s1 & s2 & -> & H1 & H2).
      constructor; [by apply IH|done].
Qed.

(** [accepts] decides membership. *)
Lemma accepts_matches r s : accepts r s = true <-> matches r s.
Proof.
  unfold accepts. revert r. induction s as [|c s IH]; intros r; simpl.
  - apply nullable_matches.
  - rewrite IH. apply derive_matches.
Qed.

(** *** Reading a match *)

Lemma matches_empty_inv s : matches Empty s -> s = [].
Proof. intros H. by inversion H. Qed.

Lemma matches_class_inv p s : matches (Class p) s -> exists c, s = [c] /\ p c = true.
Proof. intros H. inversion H; subst. eauto. Qed.

Lemma matches_seq_inv r1 r2 s :
  matches (Seq r1 r2) s -> exists s1 s2, s = s1 ++ s2 /\ matches r1 s1 /\ matches r2 s2.
Proof. intros H. inversion H; subst. eauto. Qed.

Lemma matches_or_inv r1 r2 s : matches (Or r1 r2) s -> matches r1 s \/ matches r2 s.
Proof. intros H. inversion H; subst; eauto. Qed.

Lemma matches_lit c s : matches (Lit c) s <-> s = [c].
Proof.
  split.
  - intros H. apply matches_class_inv in H as (c' & -> & Hc).
    apply Ascii.eqb_eq in Hc. by subst.
  - intros ->. constructor. apply Ascii.eqb_refl.
Qed.

Lemma matches_star_class p s : matches (Star (Class p)) s <-> Forall (fun c => p c = true) s.
Proof.
  split.
  - intros H. remember (Star (Class p)) as r eqn:Hr.
    induction H as [| | | | | |r0 s1 s2 H1 _ H2 IH2]; try discriminate; [constructor|].
    injection Hr as ->. inversion H1; subst. constructor; [done|by apply IH2].
  - induction 1 as [|c s Hc _ IH]; [constructor|].
    apply (matches_star_more (Class p) [c] s); [by constructor|done].
Qed.

Lemma matches_plus_class p s :
  matches (Plus (Class p)) s <-> s <> [] /\ Forall (fun c => p c = true) s.
Proof.
  split.
  - intros H. apply matches_seq_inv in H as (s1 & s2 & -> & H1 & H2).
    apply matches_class_inv in H1 as (c & -> & Hc).
    apply matches_star_class in H2. split; [done|by constructor].
  - intros [Hne Hall]. destruct Hall as [|c s Hc Hs]; [done|].
    apply (matches_seq (Class p) (Star (Class p)) [c] s); [by constructor|].
    by apply matches_star_class.
Qed.

Lemma matches_upto3_class p s :
  matches (Upto3 (Class p)) s ->
  s <> [] /\ length s <= 3 /\ Forall (fun c => p c = true) s.
Proof.
  intros H. apply matches_seq_inv in H as (s1 & s2 & -> & H1 & H2).
  apply matches_class_inv in H1 as (a & -> & Ha).
  apply matches_or_inv in H2 as [H2|H2].
  { apply matches_empty_inv in H2 as ->. simpl.
    repeat split; [done|lia|by repeat constructor]. }
  apply matches_seq_inv in H2 as (s3 & s4 & -> & H3 & H4).
  apply matches_class_inv in H3 as (b & -> & Hb).
  apply matches_or_inv in H4 as [H4|H4].
  { apply matches_empty_inv in H4 as ->. simpl.
    repeat split; [done|lia|by repeat constructor]. }
  apply matches_class_inv in H4 as (c & -> & Hc). simpl.
  repeat split; [done|lia|by repeat constructor].
Qed.

Lemma matches_atleast2_class p s :
  matches (Atleast2 (Class p)) s <-> 2 <= length s /\ Forall (fun c => p c = true) s.
Proof.
  split.
  - intros H. apply matches_seq_inv in H as (s1 & s2 & -> & H1 & H2).
    apply matches_class_inv in H1 as (a & -> & Ha).
    apply matches_seq_inv in H2 as (s3 & s4 & -> & H3 & H4).
    apply matches_class_inv in H3 as (b & -> & Hb).
    apply matches_star_class in H4. simpl. split; [lia|by repeat constructor].
  - intros [Hlen Hall]. destruct Hall as [|a s Ha Hs]; [simpl in Hlen; lia|].
    destruct Hs as [|b s Hb Hs]; [simpl in Hlen; lia|].
    apply (matches_seq (Class p) _ [a] (b :: s)); [by constructor|].
    apply (matches_seq (Class p) _ [b] s); [by constructor|].
    by apply matches_star_class.
Qed.

Lemma matches_star_concat r s :
  matches (Star r) s <-> exists ss, s = concat ss /\ Forall (matches r) ss.
Proof.
  split.
  - intros H. remember (Star r) as r' eqn:Hr.
    induction H as [| | | | | |r0 s1 s2 H1 _ H2 IH2]; try discriminate.
    + by exists [].
    + injection Hr as ->. destruct (IH2 eq_refl) as (ss & -> & Hss).
      exists (s1 :: ss). split; [done|by constructor].
  - intros (ss & -> & Hss). induction Hss as [|x ss Hx _ IH]; simpl.
    + constructor.
    + by constructor.
Qed.

Lemma matches_plus_concat r s :
  matches (Plus r) s <-> exists x ss, s = concat (x :: ss) /\ Forall (matches r) (x :: ss).
Proof.
  split.
  - intros H. apply matches_seq_inv in H as (s1 & s2 & -> & H1 & H2).
    apply matches_star_concat in H2 as (ss & -> & Hss).
    exists s1, ss. split; [done|by constructor].
  - intros (x & ss & -> & Hall). inversion Hall; subst. simpl.
    constructor; [done|]. apply matches_star_concat. by exists ss.
Qed.

End RegexFacts.

(** ** The pattern of [validateEmail] *)

Module LoginFacts.
Import JS Str Regex RegexFacts Login.

Lemma chars_unchars l : chars (unchars l) = l.
Proof. induction l as [|c l IH]; simpl; [done|by rewrite IH]. Qed.

Lemma unchars_chars s : unchars (chars s) = s.
Proof. induction s as [|c s IH]; simpl; [done|by rewrite IH]. Qed.

(** *** Lower-casing changes no verdict of the pattern *)

Lemma derive_respects f r c : respects f r -> derive (f c) r = derive c r.
Proof.
  induction r as [| |p|r1 IH1 r2 IH2|r1 IH1 r2 IH2|r IH]; simpl; try done.
  - intros H. by rewrite H.
  - intros [H1 H2]. by rewrite IH1, IH2.
  - intros [H1 H2]. by rewrite IH1, IH2.
  - intros H. by rewrite IH.
Qed.

Lemma respects_derive f r c : respects f r -> respects f (derive c r).
Proof.
  induction r as [| |p|r1 IH1 r2 IH2|r1 IH1 r2 IH2|r IH]; simpl; try done.
  - intros _. by destruct (p c).
  - intros [H1 H2]. destruct (nullable r1); simpl; auto.
  - intros [H1 H2]. auto.
  - intros H. auto.
Qed.

Lemma accepts_respects f r s : respects f r -> accepts r (map f s) = accepts r s.
Proof.
  unfold accepts. revert r. induction s as [|c s IH]; intros r Hr; simpl; [done|].
  rewrite (derive_respects f r c Hr). apply IH. by apply respects_derive.
Qed.

Ltac by_cases_on c := destruct c as [[] [] [] [] [] [] [] []]; reflexivity.

Lemma atom_char_lower c : atom_char (lower_char c) = atom_char c.
Proof. by_cases_on c. Qed.
Lemma any_char_lower c : any_char (lower_char c) = any_char c.
Proof. by_cases_on c. Qed.
Lemma letter_lower c : letter (lower_char c) = letter c.
Proof. by_cases_on c. Qed.
Lemma label_char_lower c : label_char (lower_char c) = label_char c.
Proof. by_cases_on c. Qed.
Lemma is_digit_lower c : is_digit (lower_char c) = is_digit c.
Proof. by_cases_on c. Qed.
Lemma dot_lower c : Ascii.eqb "." (lower_char c) = Ascii.eqb "." c.
Proof. by_cases_on c. Qed.
Lemma at_lower c : Ascii.eqb "@" (lower_char c) = Ascii.eqb "@" c.
Proof. by_cases_on c. Qed.
Lemma open_lower c : Ascii.eqb "[" (lower_char c) = Ascii.eqb "[" c.
Proof. by_cases_on c. Qed.
Lemma close_lower c : Ascii.eqb "]" (lower_char c) = Ascii.eqb "]" c.
Proof. by_cases_on c. Qed.
Lemma dquote_lower c : Ascii.eqb JSON.dquote (lower_char c) = Ascii.eqb JSON.dquote c.
Proof. by_cases_on c. Qed.

Lemma email_re_respects_lower : respects lower_char email_re.
Proof.
  unfold email_re, dot_atom, quoted, bracketed_quad, host_name, Lit. simpl.
  repeat split;
    first [ apply atom_char_lower | apply any_char_lower | apply letter_lower
          | apply label_char_lower | apply is_digit_lower | apply dot_lower
          | apply at_lower | apply open_lower | apply close_lower
          | apply dquote_lower ].
Qed.

(** [validateEmail] decides whether the address, as typed, is a string of
    the pattern. *)
Lemma validateEmail_matches email :
  validateEmail email = true <-> matches email_re (chars email).
Proof.
  unfold validateEmail, test, toLowerCase. rewrite chars_unchars.
  rewrite (accepts_respects _ _ _ email_re_respects_lower).
  apply accepts_matches.
Qed.

(** *** The parts of the pattern *)

Lemma dot_atom_iff l :
  matches dot_atom l <->
  exists r rs, l = r ++ concat (map (cons "."%char) rs)
               /\ Forall (run_of atom_char) (r :: rs).
Proof.
  unfold dot_atom. split.
  - intros H. apply matches_seq_inv in H as (s1 & s2 & -> & H1 & H2).
    apply matches_plus_class in H1.
    apply matches_star_concat in H2 as (ss & -> & Hss).
    assert (exists rs, ss = map (cons "."%char) rs /\ Forall (run_of atom_char) rs)
      as (rs & -> & Hrs).
    { induction Hss as [|x ss Hx _ (rs & -> & Hrs)]; [by exists []|].
      apply matches_seq_inv in Hx as (a & b & -> & Ha & Hb).
      apply matches_lit in Ha as ->. apply matches_plus_class in Hb.
      exists (b :: rs). split; [done|by constructor]. }
    exists s1, rs. split; [done|by constructor].
  - intros (r & rs & -> & Hall). inversion Hall as [|? ? Hr Hrs]; subst.
    constructor; [by apply matches_plus_class|].
    apply matches_star_concat. exists (map (cons "."%char) rs). split; [done|].
    apply Forall_fmap. eapply Forall_impl; [exact Hrs|]. intros x Hx. simpl.
    apply (matches_seq (Lit ".") _ ["."%char] x); [by apply matches_lit|].
    by apply matches_plus_class.
Qed.

Lemma quoted_iff l :
  matches quoted l <->
  exists m, l = JSON.dquote :: m ++ [JSON.dquote] /\ run_of any_char m.
Proof.
  unfold quoted. simpl. split.
  - intros H. apply matches_seq_inv in H as (s1 & s2 & -> & H1 & H2).
    apply matches_lit in H1 as ->.
    apply matches_seq_inv in H2 as (m & s3 & -> & H2 & H3).
    apply matches_lit in H3 as ->. apply matches_plus_class in H2. by exists m.
  - intros (m & -> & Hm).
    apply (matches_seq _ _ [JSON.dquote] (m ++ [JSON.dquote])); [by apply matches_lit|].
    constructor; [by apply matches_plus_class|by apply matches_lit].
Qed.

Lemma upto3_iff x : matches (Upto3 (Class is_digit)) x <-> octet x.
Proof.
  split.
  - intros H. apply matches_upto3_class in H as (H1 & H2 & H3). by repeat split.
  - intros [[Hne Hall] Hlen]. unfold Upto3.
    destruct Hall as [|a x Ha Hall]; [done|].
    apply (matches_seq _ _ [a] x); [by constructor|].
    destruct Hall as [|b x Hb Hall]; [apply matches_or_l; constructor|].
    apply matches_or_r. apply (matches_seq _ _ [b] x); [by constructor|].
    destruct Hall as [|c x Hc Hall]; [apply matches_or_l; constructor|].
    apply matches_or_r. destruct x; [by constructor|simpl in Hlen; lia].
Qed.

Lemma bracketed_quad_iff d :
  matches bracketed_quad d <->
  exists a b c e,
    d = "["%char :: a ++ "."%char :: b ++ "."%char :: c ++ "."%char :: e ++ ["]"%char]
    /\ Forall octet [a; b; c; e].
Proof.
  unfold bracketed_quad. simpl. split.
  - intros H.
    apply matches_seq_inv in H as (s0 & t0 & -> & H0 & H).
    apply matches_lit in H0 as ->.
    apply matches_seq_inv in H as (a & t1 & -> & Ha & H).
    apply matches_seq_inv in H as (s1 & t2 & -> & H1 & H).
    apply matches_lit in H1 as ->.
    apply matches_seq_inv in H as (b & t3 & -> & Hb & H).
    apply matches_seq_inv in H as (s2 & t4 & -> & H2 & H).
    apply matches_lit in H2 as ->.
    apply matches_seq_inv in H as (c & t5 & -> & Hc & H).
    apply matches_seq_inv in H as (s3 & t6 & -> & H3 & H).
    apply matches_lit in H3 as ->.
    apply matches_seq_inv in H as (e & t7 & -> & He & H).
    apply matches_lit in H as ->.
    apply upto3_iff in Ha, Hb, Hc, He.
    exists a, b, c, e. split.
    + done.
    + repeat (apply List.Forall_cons; [done|]). apply List.Forall_nil.
  - intros (a & b & c & e & -> & Hall).
    apply Forall_cons in Hall as [Ha Hall]. apply Forall_cons in Hall as [Hb Hall].
    apply Forall_cons in Hall as [Hc Hall]. apply Forall_cons in Hall as [He _].
    apply upto3_iff in Ha, Hb, Hc, He.
    apply (matches_seq _ _ ["["%char]); [by apply matches_lit|].
    constructor; [done|]. apply (matches_seq _ _ ["."%char]); [by apply matches_lit|].
    constructor; [done|]. apply (matches_seq _ _ ["."%char]); [by apply matches_lit|].
    constructor; [done|]. apply (matches_seq _ _ ["."%char]); [by apply matches_lit|].
    constructor; [done|]. by apply matches_lit.
Qed.

Lemma host_name_iff d :
  matches host_name d <->
  exists x xs tld,
    d = concat (map (fun y => y ++ ["."%char]) (x :: xs)) ++ tld
    /\ Forall (run_of label_char) (x :: xs)
    /\ 2 <= length tld /\ Forall (fun c => letter c = true) tld.
Proof.
  unfold host_name.
  assert (forall y, matches (Seq (Plus (Class label_char)) (Lit ".")) y
                    <-> exists x, y = x ++ ["."%char] /\ run_of label_char x) as Hlabel.
  { intros y. split.
    - intros H. apply matches_seq_inv in H as (x & t & -> & Hx & Ht).
      apply matches_lit in Ht as ->. apply matches_plus_class in Hx. by exists x.
    - intros (x & -> & Hx). constructor; [by apply matches_plus_class|by apply matches_lit]. }
  assert (forall ys, Forall (matches (Seq (Plus (Class label_char)) (Lit "."))) ys
                     <-> exists xs, ys = map (fun y => y ++ ["."%char]) xs
                                    /\ Forall (run_of label_char) xs) as Hlabels.
  { intros ys. split.
    - induction 1 as [|y ys Hy _ (xs & -> & Hxs)]; [by exists []|].
      apply Hlabel in Hy as (x & -> & Hx). exists (x :: xs). split; [done|by constructor].
    - intros (xs & -> & Hxs). apply Forall_fmap.
      eapply Forall_impl; [exact Hxs|]. intros x Hx. simpl. apply Hlabel. by exists x. }
  split.
  - intros H. apply matches_seq_inv in H as (p & tld & -> & Hp & Htld).
    apply matches_atleast2_class in Htld as [Hlen Hall].
    apply matches_plus_concat in Hp as (y & ys & -> & Hys).
    apply Hlabels in Hys as ([|x xs] & Heq & Hxs); [done|].
    exists x, xs, tld. rewrite Heq. done.
  - intros (x & xs & tld & -> & Hxs & Hlen & Hall).
    constructor; [|by apply matches_atleast2_class].
    apply matches_plus_concat.
    exists (x ++ ["."%char]), (map (fun y => y ++ ["."%char]) xs). split; [done|].
    apply (Hlabels (map (fun y => y ++ ["."%char]) (x :: xs))). by exists (x :: xs).
Qed.

Lemma email_re_iff s :
  matches email_re s <->
  exists l d, s = l ++ "@"%char :: d /\ local_part l /\ domain_part d.
Proof.
  unfold email_re, local_part, domain_part. simpl. split.
  - intros H. apply matches_seq_inv in H as (l & t & -> & Hl & H).
    apply matches_seq_inv in H as (a & d & -> & Ha & Hd).
    apply matches_lit in Ha as ->. exists l, d. split; [done|]. split.
    + apply matches_or_inv in Hl as [Hl|Hl];
        [left; by apply dot_atom_iff|right; by apply quoted_iff].
    + apply matches_or_inv in Hd as [Hd|Hd];
        [left; by apply bracketed_quad_iff|right; by apply host_name_iff].
  - intros (l & d & -> & Hl & Hd). constructor.
    + destruct Hl as [Hl|Hl];
        [apply matches_or_l; by apply dot_atom_iff|apply matches_or_r; by apply quoted_iff].
    + apply (matches_seq _ _ ["@"%char] d); [by apply matches_lit|].
      destruct Hd as [Hd|Hd];
        [apply matches_or_l; by apply bracketed_quad_iff
        |apply matches_or_r; by apply host_name_iff].
Qed.

Lemma validateEmail_iff email :
  validateEmail email = true <->
  exists l d, chars email = l ++ "@"%char :: d /\ local_part l /\ domain_part d.
Proof. rewrite validateEmail_matches. apply email_re_iff. Qed.

(** *** Characters of an accepted address *)

Ltac by_char_cases c :=
  destruct c as [[] [] [] [] [] [] [] []]; vm_compute; intuition congruence.

Lemma atom_char_not_space c : atom_char c = true -> is_space c = false.
Proof. by_char_cases c. Qed.
Lemma atom_char_not_dot c : atom_char c = true -> c <> "."%char.
Proof. by_char_cases c. Qed.
Lemma atom_char_not_at c : atom_char c = true -> c <> "@"%char.
Proof. by_char_cases c. Qed.
Lemma atom_char_not_dquote c : atom_char c = true -> c <> JSON.dquote.
Proof. by_char_cases c. Qed.
Lemma label_char_plain c :
  label_char c = true -> is_space c = false /\ c <> "@"%char /\ c <> "."%char.
Proof. by_char_cases c. Qed.
Lemma letter_label c : letter c = true -> label_char c = true.
Proof. by_char_cases c. Qed.
Lemma digit_label c : is_digit c = true -> label_char c = true.
Proof. by_char_cases c. Qed.
Lemma lower_case_letter_lower c :
  code_in 97 122 c = false -> lower_char c = c -> letter c = false.
Proof. by_char_cases c. Qed.

Lemma domain_part_chars d : domain_part d -> Forall domain_char d.
Proof.
  intros [(a & b & c & e & -> & Hall)|(x & xs & tld & -> & Hxs & _ & Htld)].
  - apply Forall_cons in Hall as [[[_ Ha] _] Hall].
    apply Forall_cons in Hall as [[[_ Hb] _] Hall].
    apply Forall_cons in Hall as [[[_ Hc] _] Hall].
    apply Forall_cons in Hall as [[[_ He] _] _].
    assert (forall y, Forall (fun c => is_digit c = true) y -> Forall domain_char y)
      as Hdigits.
    { intros y Hy. eapply Forall_impl; [exact Hy|]. intros ch Hch. left. by apply digit_label. }
    unfold domain_char.
    repeat first [ apply Forall_app; split | apply List.Forall_cons | apply List.Forall_nil
                 | by apply Hdigits | by auto ].
  - apply Forall_app. split.
    + apply Forall_concat, Forall_fmap.
      eapply Forall_impl; [exact Hxs|]. intros y [_ Hy]. simpl.
      apply Forall_app. split.
      * eapply Forall_impl; [exact Hy|]. intros ch Hch. by left.
      * apply List.Forall_cons; [|apply List.Forall_nil]. right. by left.
    + eapply Forall_impl; [exact Htld|]. intros ch Hch. left. by apply letter_label.
Qed.

Lemma domain_char_plain c : domain_char c -> is_space c = false /\ c <> "@"%char.
Proof.
  intros [H| [-> | [-> | ->]]]; [|by vm_compute..].
  apply label_char_plain in H. tauto.
Qed.

Lemma domain_part_dot d : domain_part d -> "."%char ∈ d.
Proof.
  intros [(a & b & c & e & -> & _)|(x & xs & tld & -> & _)].
  - apply elem_of_cons. right. apply elem_of_app. right. apply elem_of_cons. by left.
  - simpl. apply elem_of_app. left. apply elem_of_app. left.
    apply elem_of_app. right. apply elem_of_cons. by left.
Qed.

(** *** The dotted form of a local part *)

Lemma includes_chars_cons sub c t :
  includes_chars sub (c :: t) = starts_with sub (c :: t) || includes_chars sub t.
Proof. done. Qed.

Lemma starts_with_cons a sub c t :
  starts_with (a :: sub) (c :: t) = Ascii.eqb a c && starts_with sub t.
Proof. done. Qed.

Lemma no_double_dot_cons c t :
  c <> "."%char ->
  includes_chars ["."%char; "."%char] (c :: t) = includes_chars ["."%char; "."%char] t.
Proof.
  intros Hc. rewrite includes_chars_cons, starts_with_cons.
  destruct (Ascii.eqb_spec "."%char c) as [<-|_]; [done|]. done.
Qed.

Lemma no_double_dot_run r t :
  Forall (fun c => atom_char c = true) r ->
  includes_chars ["."%char; "."%char] (r ++ t) = includes_chars ["."%char; "."%char] t.
Proof.
  induction 1 as [|c r Hc _ IH]; [done|]. simpl app.
  rewrite no_double_dot_cons; [done|by apply atom_char_not_dot].
Qed.

Lemma dotted_runs r rs :
  Forall (run_of atom_char) (r :: rs) ->
  let l := r ++ concat (map (cons "."%char) rs) in
  Forall (fun c => atom_char c = true \/ c = "."%char) l
  /\ (exists c, head l = Some c /\ atom_char c = true)
  /\ (exists c, last l = Some c /\ atom_char c = true)
  /\ includes_chars ["."%char; "."%char] l = false.
Proof.
  revert r. induction rs as [|x rs IH]; intros r Hall.
  - apply Forall_cons in Hall as [[Hne Hr] _]. simpl. rewrite app_nil_r.
    split; [eapply Forall_impl; [exact Hr|]; by left|].
    split.
    { destruct Hr as [|c r Hc Hr]; [done|]. by exists c. }
    split.
    { destruct (last r) as [c|] eqn:Hlast; [|by apply last_None in Hlast].
      exists c. split; [done|]. rewrite Forall_forall in Hr. apply Hr.
      apply last_Some in Hlast as [r' ->]. apply elem_of_app. right. by left. }
    rewrite <- (app_nil_r r). rewrite no_double_dot_run; done.
  - apply Forall_cons in Hall as [[Hne Hr] Hall].
    destruct (IH x Hall) as (Hchars & (c0 & Hhead & Hc0) & Hlast & Hdd).
    simpl. set (t := x ++ concat (map (cons "."%char) rs)) in *.
    split.
    { apply Forall_app. split; [eapply Forall_impl; [exact Hr|]; by left|].
      apply List.Forall_cons; [by right|done]. }
    split.
    { destruct Hr as [|c r Hc Hr]; [done|]. by exists c. }
    split.
    { destruct Hlast as (c & Hc & Hatom). exists c. split; [|done].
      rewrite last_app, last_cons, Hc. done. }
    rewrite no_double_dot_run by done.
    destruct t as [|c1 t]; [done|]. simpl in Hhead. injection Hhead as ->.
    rewrite includes_chars_cons, !starts_with_cons.
    destruct (Ascii.eqb_spec "."%char c0) as [<-|_]; [by vm_compute in Hc0|]. done.
Qed.

Lemma includes_chars_head a sub s : includes_chars (a :: sub) s = true -> a ∈ s.
Proof.
  induction s as [|c s IH]; [done|].
  rewrite includes_chars_cons, starts_with_cons.
  rewrite orb_true_iff, andb_true_iff. intros [[Ha _]|H].
  - apply Ascii.eqb_eq in Ha as ->. by left.
  - right. by apply IH.
Qed.

Lemma starts_with_app sub s t :
  starts_with sub s = true -> starts_with sub (s ++ t) = true.
Proof.
  revert s. induction sub as [|a sub IH]; intros [|c s]; try done.
  simpl app. rewrite !starts_with_cons, !andb_true_iff.
  intros [-> H]. split; [done|by apply IH].
Qed.

Lemma includes_chars_app_l sub l t :
  includes_chars sub l = true -> includes_chars sub (l ++ t) = true.
Proof.
  induction l as [|c l IH].
  - destruct sub; [|done]. intros _. by destruct t.
  - rewrite includes_chars_cons. intros H. simpl app. rewrite includes_chars_cons.
    apply orb_true_iff in H as [H|H].
    + pose proof (starts_with_app _ (c :: l) t H) as H'. simpl app in H'.
      by rewrite H'.
    + rewrite (IH H). by rewrite orb_true_r.
Qed.

End LoginFacts.

(** ** The login form *)

Import JS Str Regex Login.


(** X2.  An accepted address that does not start with a double quote has
    exactly one [@] and no white space; before the [@] it neither starts nor
    ends with a dot and has no two dots in a row; after it there is a dot. *)
Theorem unquoted_address_is_plain email :
  validateEmail email = true ->
  head (chars email) <> Some JSON.dquote ->
  exists l d,
    chars email = l ++ "@"%char :: d
    /\ ("@"%char ∉ l) /\ ("@"%char ∉ d)
    /\ Forall (fun c => is_space c = false) (chars email)
    /\ head l <> Some "."%char /\ last l <> Some "."%char
    /\ includes_chars ["."%char; "."%char] l = false
    /\ "."%char ∈ d.
Proof.
  intros Hvalid Hhead.
  apply LoginFacts.validateEmail_iff in Hvalid as (l & d & Heq & Hl & Hd).
  exists l, d. split; [done|].
  destruct Hl as [(r & rs & -> & Hruns)|(m & -> & _)].
  2:{ rewrite Heq in Hhead. done. }
  destruct (LoginFacts.dotted_runs r rs Hruns)
    as (Hchars & (c0 & Hc0 & Hatom0) & (c1 & Hc1 & Hatom1) & Hdd).
  pose proof (LoginFacts.domain_part_chars d Hd) as Hdchars.
  split.
  { intros Hat. rewrite Forall_forall in Hchars.
    destruct (Hchars _ Hat) as [H|H]; [by vm_compute in H|done]. }
  split.
  { intros Hat. rewrite Forall_forall in Hdchars.
    by destruct (LoginFacts.domain_char_plain _ (Hdchars _ Hat)). }
  split.
  { rewrite Heq. apply Forall_app. split.
    - eapply Forall_impl; [exact Hchars|]. intros c [H| ->]; [|done].
      by apply LoginFacts.atom_char_not_space.
    - apply List.Forall_cons; [done|].
      eapply Forall_impl; [exact Hdchars|]. intros c H.
      by destruct (LoginFacts.domain_char_plain _ H). }
  split.
  { rewrite Hc0. intros [= ->]. by vm_compute in Hatom0. }
  split.
  { rewrite Hc1. intros [= ->]. by vm_compute in Hatom1. }
  split; [done|]. by apply LoginFacts.domain_part_dot.
Qed.

Lemma unquoted_address_is_plain_witness :
  validateEmail "ann.lee@mail.example.org" = true
  /\ Forall (fun c => is_space c = false) (chars "ann.lee@mail.example.org").
Proof.
  assert (validateEmail "ann.lee@mail.example.org" = true) as H1 by (vm_compute; reflexivity).
  assert (head (chars "ann.lee@mail.example.org") <> Some JSON.dquote) as H2
    by (vm_compute; discriminate).
  destruct (unquoted_address_is_plain _ H1 H2) as (l & d & _ & _ & _ & H & _).
  split; [exact H1|exact H].
Defined.

(** X3.  For an address without [@], [guess_host] clears the help link,
    disables the OAuth choice and hides the password box, and does nothing
    else: no host is filled in. *)
Theorem address_without_at_gets_no_form oauth email :
  "@"%char ∉ chars email ->
  guess_host oauth email
  = [ Attr_set "#link-less-secure" "href" "";
      Attr_set "#rdo-oauth" "disabled" "";
      Hidden "#password-container" ].
Proof.
  intros Hat. unfold guess_host.
  destruct (validateEmail email) eqn:Hvalid; [|done].
  apply LoginFacts.validateEmail_iff in Hvalid as (l & d & Heq & _).
  exfalso. apply Hat. rewrite Heq. apply elem_of_app. right. by left.
Qed.

Lemma address_without_at_gets_no_form_witness :
  ("@"%char ∉ chars "ann.example.org")
  /\ length (guess_host true "ann.example.org") = 3.
Proof.
  assert ("@"%char ∉ chars "ann.example.org") as H.
  { simpl. rewrite !not_elem_of_cons. repeat split; try discriminate.
    apply not_elem_of_nil. }
  split; [exact H|]. by rewrite (address_without_at_gets_no_form true _ H).
Defined.

(** X4.  The address is accepted in either case, but the provider is looked
    for in lower case only: an accepted address with no lower-case letter in
    it gets an empty host and loses the OAuth panel, whatever its domain. *)
Theorem address_in_capitals_gets_no_host oauth email :
  validateEmail email = true ->
  Forall (fun c => code_in 97 122 c = false) (chars email) ->
  guess_host oauth email
  = [ Attr_set "#link-less-secure" "href" "";
      Attr_set "#rdo-oauth" "disabled" "";
      Shown "#password-container" ]
    ++ toggle_login_mode oauth
    ++ [ Removed ".oauth"; Checked "#rdo-plain";
         Val_set "#input-host" ""; Hidden ".oauth" ].
Proof.
  intros Hvalid Hcaps.
  assert (forall a sub, code_in 97 122 a = true ->
                        includes email (String a sub) = false) as Hnone.
  { intros a sub Ha. unfold includes. simpl chars.
    destruct (includes_chars (a :: chars sub) (chars email)) eqn:Hin; [|done].
    apply LoginFacts.includes_chars_head in Hin.
    rewrite Forall_forall in Hcaps. apply Hcaps in Hin. congruence. }
  unfold guess_host, other_host. rewrite Hvalid.
  rewrite !Hnone by done. done.
Qed.

Lemma address_in_capitals_gets_no_host_witness :
  validateEmail "ANN@GMAIL.COM" = true
  /\ Val_set "#input-host" "" ∈ guess_host false "ANN@GMAIL.COM".
Proof.
  assert (validateEmail "ANN@GMAIL.COM" = true) as H1 by (vm_compute; reflexivity).
  assert (Forall (fun c => code_in 97 122 c = false) (chars "ANN@GMAIL.COM")) as H2
    by (simpl; repeat constructor).
  split; [exact H1|].
  rewrite (address_in_capitals_gets_no_host false _ H1 H2).
  simpl. rewrite !elem_of_cons. tauto.
Defined.

(** X5.  The provider is looked for in the whole address, so the local part
    can decide it: an accepted address with [gmail] before the [@] gets the
    Gmail host, the help link and the OAuth choice, whatever its domain. *)
Theorem local_part_can_name_the_provider oauth email l d :
  validateEmail email = true ->
  chars email = l ++ "@"%char :: d ->
  includes_chars (chars "gmail") l = true ->
  guess_host oauth email
  = [ Attr_set "#link-less-secure" "href" "";
      Attr_set "#rdo-oauth" "disabled" "";
      Shown "#password-container" ]
    ++ toggle_login_mode oauth
    ++ [ Val_set "#input-host" "imap.gmail.com";
         Attr_set "#link-less-secure" "href"
                  "https://myaccount.google.com/lesssecureapps";
         Attr_removed "#rdo-oauth" "disabled";
         Shown ".oauth" ].
Proof.
  intros Hvalid Heq Hin. unfold guess_host. rewrite Hvalid.
  unfold includes at 1. rewrite Heq.
  by rewrite (LoginFacts.includes_chars_app_l _ _ _ Hin).
Qed.

Lemma local_part_can_name_the_provider_witness :
  validateEmail "gmail.fan@csail.mit.edu" = true
  /\ Val_set "#input-host" "imap.gmail.com" ∈ guess_host false "gmail.fan@csail.mit.edu".
Proof.
  assert (validateEmail "gmail.fan@csail.mit.edu" = true) as H1
    by (vm_compute; reflexivity).
  split; [exact H1|].
  rewrite (local_part_can_name_the_provider false "gmail.fan@csail.mit.edu"
             (chars "gmail.fan") (chars "csail.mit.edu") H1 eq_refl eq_refl).
  simpl. rewrite !elem_of_cons. tauto.
Defined.


(** ** The editor's poll *)

Module EditorFacts.
Import JS Notions.

Lemma run_snoc w evs ev :
  Editor.run w (evs ++ [ev]) = Editor.step (Editor.run w evs) ev.
Proof. unfold Editor.run. by rewrite fold_left_app. Qed.

Lemma step_timers w ev : Editor.timers w = 1 -> Editor.timers (Editor.step w ev) = 1.
Proof.
  intros Ht. destruct ev as [|res|]; simpl.
  - by rewrite Ht.
  - destruct (Editor.requests w); [done|]. unfold Editor.fetch_log_done. simpl.
    destruct (Editor.status res); simpl; [|done].
    destruct (negb _); [|done]. unfold Editor.append_log. simpl.
    by destruct (String.eqb _ _).
  - by destruct (Editor.requests w).
Qed.

Lemma session_timers evs : Editor.timers (Editor.session evs) = 1.
Proof.
  induction evs as [|ev evs IH] using rev_ind; [done|].
  unfold Editor.session. rewrite run_snoc. by apply step_timers.
Qed.



End EditorFacts.

(** ** The history view's counters *)

Module CounterFacts.
Import JS Str History Terms RenderFacts SessionFacts.

Section Counters.

Variable sort_with : (string -> string -> Z) -> list string -> list string.

Lemma clicks_counters l w :
  requests (for_each load_more_clicked l w).2 = requests w
  /\ timers (for_each load_more_clicked l w).2 = timers w.
Proof.
  revert w. induction l as [|c l IH]; intros w; simpl; [done|].
  unfold mbind, M_bind.
  assert (requests (load_more_clicked c w).2 = requests w
          /\ timers (load_more_clicked c w).2 = timers w) as [Hr Ht].
  { unfold load_more_clicked, mbind, M_bind, emit, modify.
    destruct (append_log_spec (pick (not_in (keys_of (initial_msg_log c))
                                            (recent_keys c)) (initial_msg_log c)) w)
      as (rows & ((_ & _ & _ & _ & Hr & Ht) & _) & _).
    destruct (append_log _ w) as [[e|[]] w2]; simpl in *; done. }
  destruct (load_more_clicked c w) as [[e|[]] w2]; simpl in *; [by split|].
  destruct (IH w2) as [Hr2 Ht2]. split; congruence.
Qed.

Lemma step_counters w ev :
  requests w + timers w <= 1 ->
  requests (step sort_with w ev) + timers (step sort_with w ev) <= 1.
Proof.
  intros Hw. destruct ev as [|res| |].
  - simpl. destruct (timers w) as [|n] eqn:Ht; [lia|]. simpl. lia.
  - destruct (requests w) as [|n] eqn:Hr; [simpl; rewrite Hr; lia|].
    destruct (response_outcome sort_with w res n Hr) as (Hn & [(Ht & _)|(Ht & _)]); lia.
  - simpl. destruct (requests w) as [|n] eqn:Hr; [lia|].
    unfold run_handler, fetch_log_failed, emit, modify. simpl. lia.
  - simpl. destruct (load_more_visible w); [|done].
    unfold run_handler.
    destruct (clicks_counters (load_more_handlers w) w) as [Hr Ht].
    destruct (for_each load_more_clicked (load_more_handlers w) w) as [[e|[]] w2];
      simpl in *; lia.
Qed.

Lemma session_counters evs :
  requests (session sort_with evs) + timers (session sort_with evs) <= 1.
Proof.
  induction evs as [|ev evs IH] using rev_ind; [simpl; lia|].
  unfold session, run in *. rewrite fold_left_app. simpl. by apply step_counters.
Qed.

End Counters.

End CounterFacts.

Import JS Str History Terms Notions.

(** X6.  The editor's poll never pauses: after every event exactly one timer
    is pending, and a tick sends a request whether or not the earlier ones
    were answered, so the requests in flight grow by one. *)
Theorem editor_poll_never_pauses evs :
  Editor.timers (Editor.session evs) = 1
  /\ Editor.requests (Editor.session (evs ++ [Editor.Timer_fired]))
     = S (Editor.requests (Editor.session evs)).
Proof.
  split; [apply EditorFacts.session_timers|].
  unfold Editor.session. rewrite EditorFacts.run_snoc.
  pose proof (EditorFacts.session_timers evs) as Ht. unfold Editor.session in Ht.
  simpl. by rewrite Ht.
Qed.


(** X8.  In the history view polls never overlap: whatever the events and
    the payloads, at most one request or timer is outstanding.  Once none
    is, no timer or response event changes the page again. *)
Theorem history_polls_never_overlap sort_with evs :
  let w := session sort_with evs in
  requests w + timers w <= 1
  /\ (requests w + timers w = 0 ->
      forall evs', Load_more_click ∉ evs' -> run sort_with w evs' = w).
Proof.
  intros w. split; [apply CounterFacts.session_counters|].
  intros Hzero evs' Hevs'. apply SessionFacts.halted_stays; [|done].
  split; lia.
Qed.

(** ** What [append_log] renders, and when it returns *)

Module BatchFacts.
Import JS Str History Terms Notions RenderFacts SessionFacts.

Lemma strip_separators_app (a b : string) :
  strip_separators (a +:+ b) = (strip_separators a +:+ strip_separators b)%string.
Proof.
  induction a as [|c a IH]; simpl; [done|].
  destruct (_ || _); simpl; by rewrite IH.
Qed.

Lemma append_cancel (a x y : string) : (a +:+ x = a +:+ y)%string -> x = y.
Proof. induction a as [|c a IH]; simpl; [done|]. intros [= H]. by apply IH. Qed.

(** *** [sort()] sorts *)

Lemma insert_sorted_ascending k l : ascending l -> ascending (insert_sorted k l).
Proof.
  induction l as [|a l IH]; simpl; [done|]. intros Hl.
  destruct (String.leb k a) eqn:Hka; [by split|].
  assert (String.leb a k = true) as Hak.
  { destruct (String.leb_total a k) as [H|H]; [done|congruence]. }
  destruct l as [|b l]; simpl in *; [by split|].
  destruct Hl as [Hab Hl]. specialize (IH Hl).
  destruct (String.leb k b) eqn:Hkb; simpl in *; split; try done;
    try (by destruct IH).
Qed.

Lemma sort_default_ascending l : ascending (sort_default l).
Proof.
  unfold sort_default. induction l as [|k l IH]; simpl; [done|].
  by apply insert_sorted_ascending.
Qed.

(** *** One entry *)












End BatchFacts.

(** ** The history view's rows *)

(** X9.  The id of an entry's two panels is its timestamp without spaces,
    slashes, colons and commas, so it does not tell where they were: moving
    text across a slash (a digit between month and day: January 11th,
    November 1st) gives the same id, the same two panel cells, and so the
    same selectors on lines 37 to 61; and when the text starts with a digit
    the two keys differ. *)
Theorem panel_ids_ignore_the_separators a c r trigger1 error1 log1 trigger2 error2 log2 :
  let k1 := (a +:+ "/" +:+ c +:+ r)%string in
  let k2 := (a +:+ c +:+ "/" +:+ r)%string in
  strip_separators k1 = strip_separators k2
  /\ row_cells (row_of k1 trigger1 error1 log1) !! 2
     = row_cells (row_of k2 trigger2 error2 log2) !! 2
  /\ row_cells (row_of k1 trigger1 error1 log1) !! 3
     = row_cells (row_of k2 trigger2 error2 log2) !! 3
  /\ (head_digit c = true -> k1 <> k2).
Proof.
  intros k1 k2.
  assert (strip_separators k1 = strip_separators k2) as Hid.
  { unfold k1, k2. by rewrite !BatchFacts.strip_separators_app. }
  split; [done|]. unfold row_of. simpl. rewrite Hid. split; [done|]. split; [done|].
  intros Hc Heq. unfold k1, k2 in Heq. apply BatchFacts.append_cancel in Heq.
  destruct c as [|d c]; [done|]. simpl in Heq. injection Heq as <- _.
  by vm_compute in Hc.
Qed.

(** X10.  When [append_log] returns, it has added one row for each key of
    the batch and nothing else to the table, in ascending order of the keys
    as strings, whatever the order the batch lists them in. *)
Theorem append_log_adds_rows_in_ascending_order o w u :
  (append_log o w).1 = inr u ->
  exists rows,
    table (append_log o w).2 = table w ++ rows
    /\ map row_key rows ≡ₚ keys_of o
    /\ NoDup (map row_key rows)
    /\ ascending (map row_key rows).
Proof.
  intros Hret.
  destruct (RenderFacts.append_log_spec o w) as (rows & (_ & Ht & _) & _ & Hall).
  exists rows. split; [done|]. rewrite (Hall u Hret).
  split; [apply KeyFacts.sort_default_perm|].
  split; [|apply BatchFacts.sort_default_ascending].
  rewrite (KeyFacts.sort_default_perm (keys_of o)). apply KeyFacts.ordered_keys_NoDup.
Qed.

Lemma append_log_adds_rows_in_ascending_order_witness :
  let o := [("b"%string, 0); ("a"%string, 1)] in
  let w := set_heap [VObj [("from_"%string, VObj [])]; VObj [("from_"%string, VObj [])]]
                    page_loaded in
  (append_log o w).1 = inr tt
  /\ rendered (append_log o w).2 = ["a"%string; "b"%string].
Proof.
  intros o w.
  assert ((append_log o w).1 = inr tt) as H by (vm_compute; reflexivity).
  split; [exact H|].
  destruct (append_log_adds_rows_in_ascending_order o w tt H) as (rows & _).
  vm_compute. reflexivity.
Defined.






(** ** The array of unsaved tabs *)

Module EditorPageFacts.
Import JS EditorPage.

(** Only numbers are ever pushed on [unsaved_tabs]. *)
Lemma step_numbers p ev :
  Forall (fun v => exists id, v = VNum id) (unsaved_tabs p) ->
  Forall (fun v => exists id, v = VNum id) (unsaved_tabs (step p ev)).
Proof.
  intros Hp. destruct ev as [id|href|is_running res]; simpl.
  - apply Forall_app. split; [done|]. apply List.Forall_cons; [eauto|apply List.Forall_nil].
  - by destruct (negb _).
  - unfold run_code_done. destruct (status res); simpl; [|done].
    destruct (imap_error res), (code res); simpl;
      unfold append_log; destruct (String.eqb _ _); simpl; apply List.Forall_nil.
Qed.

Lemma run_numbers p evs :
  Forall (fun v => exists id, v = VNum id) (unsaved_tabs p) ->
  Forall (fun v => exists id, v = VNum id) (unsaved_tabs (run p evs)).
Proof.
  revert p. induction evs as [|ev evs IH]; intros p Hp; [done|].
  simpl. apply IH. by apply step_numbers.
Qed.

Lemma includes_numbers l x :
  Forall (fun v => exists id, v = VNum id) l -> includes l x = false.
Proof.
  induction 1 as [|v l [id ->] _ IH]; [done|]. simpl. by rewrite IH.
Qed.

End EditorPageFacts.

Import EditorPage.

(** X14.  [get_running] reads back what [set_running] wrote, and the cog and
    the idle mark agree with it: the cog spins and the mark is hidden exactly
    when the page says it is running.  Nothing else changes. *)
Theorem running_mark_round_trip b p :
  let p' := set_running b p in
  get_running p' = b
  /\ cog_spinning p' = b
  /\ idle_mark p' = (if b then "none" else "inline-block")%string
  /\ loader_shown p' = loader_shown p
  /\ unsaved_tabs p' = unsaved_tabs p
  /\ effects p' = effects p.
Proof. by destruct b. Qed.

(** X15.  Whatever the answer to [run_code], its callback hides the loader.
    On [status] with [imap_error] the page is marked stopped, whatever was
    asked; on [status] without it the page is marked as was asked, so that
    an answered click on the submit button flips the mark; without [status]
    the mark and the unsaved tabs stay, and the user is notified of the
    failure.  On [status] the unsaved tabs are forgotten. *)
Theorem run_code_answer_sets_the_running_mark is_running res p :
  let p' := run_code_done is_running res p in
  loader_shown p' = false
  /\ get_running p'
     = (if status res then (if imap_error res then false else is_running)
        else get_running p)
  /\ (status res = true -> unsaved_tabs p' = [])
  /\ (status res = false ->
      unsaved_tabs p' = unsaved_tabs p
      /\ effects p' = effects p ++ [Console_log; Notified false])
  /\ (status res = true -> imap_error res = false ->
      get_running (run_code_done (submit_clicked p) res p) = negb (get_running p)).
Proof.
  unfold run_code_done, submit_clicked, append_log.
  destruct (status res), (imap_error res), (code res), is_running,
    (String.eqb (imap_log res) ""), (get_running p) eqn:Hrun; simpl;
    rewrite ?Hrun, <- ?app_assoc; repeat split; intros; try done.
Qed.

(** X16.  Closing a tab always asks the server to delete its mode, also when
    the tab was added on this page and never saved: [unsaved_tabs] holds the
    numbers of line 112, the id read from the link is a string or
    [undefined], and [includes] finds neither among numbers. *)
Theorem closing_a_tab_always_deletes_the_mode p0 evs href :
  unsaved_tabs p0 = [] ->
  let p := run p0 evs in
  step p (Tab_closed href)
  = Page (button_text p) (cog_spinning p) (idle_mark p) (loader_shown p)
         (unsaved_tabs p) (effects p ++ [Post_delete (second_piece href)]).
Proof.
  intros Hp0 p. simpl.
  rewrite EditorPageFacts.includes_numbers; [done|].
  apply EditorPageFacts.run_numbers. rewrite Hp0. apply List.Forall_nil.
Qed.

Lemma closing_a_tab_always_deletes_the_mode_witness :
  let p0 := Page "Enable" false "inline-block" false [] [] in
  unsaved_tabs p0 = []
  /\ unsaved_tabs (run p0 [Tab_added "4"]) = [VNum "4"]
  /\ effects (run p0 [Tab_added "4"; Tab_closed "#editor-tab_4"])
     = [Post_delete (VStr "4")].
Proof.
  intros p0. split; [reflexivity|]. split; [reflexivity|].
  change (run p0 [Tab_added "4"; Tab_closed "#editor-tab_4"])
    with (step (run p0 [Tab_added "4"]) (Tab_closed "#editor-tab_4")).
  by rewrite (closing_a_tab_always_deletes_the_mode p0 [Tab_added "4"]
                "#editor-tab_4" eq_refl).
Defined.


(** ** Scanning and matching in the completion helper *)

Module HintFacts.
Import JS Str Hint.

Lemma word_at_length (line : list ascii) i : word_at line i = true -> i < length line.
Proof.
  unfold word_at. destruct (line !! i) eqn:Hi; [|done]. intros _.
  by apply lookup_lt_Some in Hi.
Qed.

(** The forward scan stops at the first character from [e] on that is not
    of the word, or at the end of the line. *)
Lemma scan_end_spec fuel (line : list ascii) e :
  e + fuel = length line ->
  let e' := scan_end fuel line e in
  e <= e' <= length line
  /\ (forall i, e <= i < e' -> word_at line i = true)
  /\ word_at line e' = false.
Proof.
  revert e. induction fuel as [|fuel IH]; intros e Hfuel; simpl.
  - split; [lia|]. split; [intros i Hi; lia|].
    destruct (word_at line e) eqn:Hw; [|done]. apply word_at_length in Hw. lia.
  - destruct (Nat.ltb_spec e (length line)) as [Hlt|Hge]; [|lia]. simpl.
    destruct (word_at line e) eqn:Hw.
    + destruct (IH (S e)) as (Hb & Hall & Hstop); [lia|].
      split; [lia|]. split; [|done]. intros i Hi.
      destruct (decide (i = e)) as [->|Hne]; [done|]. apply Hall. lia.
    + split; [lia|]. split; [intros i Hi; lia|done].
Qed.

(** The backward scan stops after the last character before [s] that is not
    of the word, or at the start of the line. *)
Lemma scan_start_spec (line : list ascii) s :
  let s' := scan_start line s in
  s' <= s
  /\ (forall i, s' <= i < s -> word_at line i = true)
  /\ (s' = 0 \/ word_at line (s' - 1) = false).
Proof.
  induction s as [|s IH]; simpl.
  - split; [done|]. split; [intros i Hi; lia|by left].
  - destruct (word_at line s) eqn:Hw.
    + destruct IH as (Hb & Hall & Hstop). split; [lia|]. split; [|done].
      intros i Hi. destruct (decide (i = s)) as [->|Hne]; [done|]. apply Hall. lia.
    + split; [done|]. split; [intros i Hi; lia|]. right. simpl.
      by rewrite Nat.sub_0_r.
Qed.

Lemma slice_word (line : list ascii) s e :
  (forall i, s <= i < e -> word_at line i = true) ->
  Forall (fun c => word_char c = true) (slice line s e).
Proof.
  intros Hall. unfold slice. apply Forall_lookup. intros j c Hj.
  apply lookup_take_Some in Hj as [Hj Hlt]. rewrite lookup_drop in Hj.
  specialize (Hall (s + j)). unfold word_at in Hall. rewrite Hj in Hall.
  apply Hall. lia.
Qed.

Lemma slice_length (line : list ascii) s e :
  s <= e <= length line -> length (slice line s e) = e - s.
Proof. intros H. unfold slice. rewrite length_take, length_drop. lia. Qed.

(** *** The pattern *)

(** Without [$] the word is compared, ignoring case, with the start of the
    name. *)
Lemma match_here_prefix word item :
  "$"%char ∉ word ->
  match_here word item = true
  <-> map canonicalize word `prefix_of` map canonicalize item.
Proof.
  revert item. induction word as [|c word IH]; intros item Hd; simpl.
  - split; [intros _; apply prefix_nil|done].
  - apply not_elem_of_cons in Hd as [Hc Hd].
    destruct (Ascii.eqb_spec c "$"%char) as [->|_]; [done|].
    destruct item as [|t item]; simpl.
    + split; [done|]. intros [k Hk]. discriminate Hk.
    + rewrite andb_true_iff, (IH item Hd). split.
      * intros [Hct Hpre]. apply Ascii.eqb_eq in Hct as ->. by apply prefix_cons.
      * intros Hpre. split.
        { apply Ascii.eqb_eq. destruct Hpre as [k Hk]. by injection Hk as -> _. }
        by apply prefix_cons_inv_2 in Hpre.
Qed.

(** After a [$] nothing of the name can follow. *)
Lemma match_here_dollar word item :
  "$"%char ∈ word -> match_here word item = true -> length item < length word.
Proof.
  revert item. induction word as [|c word IH]; intros item Hd; simpl.
  - by apply elem_of_nil in Hd.
  - destruct (Ascii.eqb_spec c "$"%char) as [->|Hc].
    + destruct item; [simpl; lia|done].
    + apply elem_of_cons in Hd as [Hd|Hd]; [congruence|].
      destruct item as [|t item]; [done|].
      rewrite andb_true_iff. intros [_ H]. apply (IH _ Hd) in H. simpl. lia.
Qed.

(** The stretch the helper replaces holds the cursor and ends on the line. *)
Lemma hint_bounds names curLine ch :
  ch <= String.length curLine ->
  let h := dictionaryHint names curLine ch in
  from h <= ch <= to h /\ to h <= length (chars curLine).
Proof.
  intros Hch h. rewrite <- JSONFacts.chars_length in Hch.
  destruct (scan_end_spec (length (chars curLine) - ch) (chars curLine) ch)
    as (He & _); [lia|].
  destruct (scan_start_spec (chars curLine) ch) as (Hs & _).
  simpl. lia.
Qed.

Lemma pad_single_length l : length (pad_single l) <> 1.
Proof. destruct l as [|a [|b l]]; simpl; lia. Qed.

Lemma pad_single_elem x l : x ∈ pad_single l -> x ∈ l \/ x = " "%string.
Proof.
  destruct l as [|a [|b l]]; simpl; auto.
  rewrite !elem_of_cons. intros [->|[->|H]]; auto.
Qed.

End HintFacts.

(** ** The completion helper *)

Import JS Str Notions Hint.

(** X17.  With the cursor on the line, the helper replaces the word around
    the cursor: the stretch from [from] to [to] holds the cursor, is made of
    characters of [[\w$]] only, and cannot be extended on either side.  The
    list it offers never has exactly one element. *)
Theorem hint_spans_the_word_at_the_cursor names curLine ch :
  ch <= String.length curLine ->
  let h := dictionaryHint names curLine ch in
  let line := chars curLine in
  from h <= ch <= to h /\ to h <= length line
  /\ Forall (fun c => word_char c = true) (slice line (from h) (to h))
  /\ word_at line (to h) = false
  /\ (from h = 0 \/ word_at line (from h - 1) = false)
  /\ length (list_ h) <> 1.
Proof.
  intros Hch h line. rewrite <- JSONFacts.chars_length in Hch. fold line in Hch.
  destruct (HintFacts.scan_end_spec (length line - ch) line ch) as (He & Hword & Hstop);
    [lia|].
  destruct (HintFacts.scan_start_spec line ch) as (Hs & Hword' & Hstart).
  simpl. fold line. repeat split; try done; try lia.
  - apply HintFacts.slice_word. intros i Hi.
    destruct (decide (i < ch)); [apply Hword'|apply Hword]; lia.
  - apply HintFacts.pad_single_length.
Qed.

Lemma hint_spans_the_word_at_the_cursor_witness :
  let h := dictionaryHint ["send"%string; "move"%string] "  msg.se(x)" 7 in
  7 <= String.length "  msg.se(x)"
  /\ from h = 6 /\ to h = 8
  /\ Forall (fun c => word_char c = true) (slice (chars "  msg.se(x)") 6 8).
Proof.
  intros h.
  assert (7 <= String.length "  msg.se(x)") as H by (simpl; lia).
  destruct (hint_spans_the_word_at_the_cursor ["send"%string; "move"%string] _ 7 H)
    as (_ & _ & Hword & _).
  split; [exact H|]. split; [reflexivity|]. split; [reflexivity|exact Hword].
Defined.

(** X18.  When the word at the cursor has no [$], the helper offers, in
    ascending order, exactly the method names that start with the word,
    ignoring case; a lone name is followed by a blank. *)
Theorem hint_offers_the_names_that_start_with_the_word names curLine ch :
  ch <= String.length curLine ->
  let h := dictionaryHint names curLine ch in
  let word := slice (chars curLine) (from h) (to h) in
  from h <> to h ->
  "$"%char ∉ word ->
  exists suggestion,
    list_ h = pad_single suggestion
    /\ ascending suggestion
    /\ suggestion
       ≡ₚ filter (fun item => map canonicalize word
                              `prefix_of` map canonicalize (chars item)) names.
Proof.
  intros Hch h word Hne Hd. simpl in *.
  set (line := chars curLine) in *.
  set (e := scan_end (length line - ch) line ch) in *.
  set (s := scan_start line ch) in *.
  unfold pattern_text. destruct (Nat.eqb_spec s e) as [Heq|_]; [done|].
  eexists. split; [reflexivity|]. split; [apply BatchFacts.sort_default_ascending|].
  rewrite KeyFacts.sort_default_perm.
  erewrite list_filter_iff; [done|]. intros item. simpl.
  by apply HintFacts.match_here_prefix.
Qed.

Lemma hint_offers_the_names_that_start_with_the_word_witness :
  let names := ["send"%string; "see_later"%string; "Set_deadline"%string; "move"%string] in
  list_ (dictionaryHint names "  msg.se" 8)
  = ["Set_deadline"%string; "see_later"%string; "send"%string].
Proof.
  intros names.
  assert (8 <= String.length "  msg.se") as H1 by (simpl; lia).
  assert (from (dictionaryHint names "  msg.se" 8)
          <> to (dictionaryHint names "  msg.se" 8)) as H2 by (vm_compute; lia).
  assert ("$"%char ∉ slice (chars "  msg.se")
                           (from (dictionaryHint names "  msg.se" 8))
                           (to (dictionaryHint names "  msg.se" 8))) as H3.
  { intros Hin. vm_compute in Hin.
    repeat (apply elem_of_cons in Hin as [Hin|Hin]; [discriminate Hin|]).
    by apply elem_of_nil in Hin. }
  destruct (hint_offers_the_names_that_start_with_the_word names _ 8 H1 H2 H3)
    as (suggestion & _).
  vm_compute. reflexivity.
Defined.

(** X19.  With no word at the cursor the helper does not offer every name:
    line 62 makes the word [false], so it offers the names that start with
    the five letters of [false], ignoring case, and replaces nothing. *)
Theorem hint_without_a_word_looks_for_false names curLine ch :
  ch <= String.length curLine ->
  word_at (chars curLine) ch = false ->
  (ch = 0 \/ word_at (chars curLine) (ch - 1) = false) ->
  let h := dictionaryHint names curLine ch in
  from h = ch /\ to h = ch
  /\ exists suggestion,
       list_ h = pad_single suggestion
       /\ suggestion
          ≡ₚ filter (fun item => map canonicalize (chars "false")
                                 `prefix_of` map canonicalize (chars item)) names.
Proof.
  intros Hch Hat Hbefore h. simpl.
  set (line := chars curLine) in *.
  assert (scan_end (length line - ch) line ch = ch) as He.
  { destruct (length line - ch); simpl; [done|]. by rewrite Hat, andb_false_r. }
  assert (scan_start line ch = ch) as Hs.
  { destruct ch as [|b]; [done|]. simpl. destruct Hbefore as [?|Hb]; [done|].
    simpl in Hb. rewrite Nat.sub_0_r in Hb. by rewrite Hb. }
  rewrite He, Hs. split; [done|]. split; [done|].
  unfold pattern_text. rewrite Nat.eqb_refl.
  eexists. split; [reflexivity|]. rewrite KeyFacts.sort_default_perm.
  erewrite list_filter_iff; [done|]. intros item. cbv beta.
  apply HintFacts.match_here_prefix. simpl chars.
  rewrite !not_elem_of_cons. repeat split; try discriminate. apply not_elem_of_nil.
Qed.

Lemma hint_without_a_word_looks_for_false_witness :
  list_ (dictionaryHint ["send"%string; "falsey"%string; "move"%string] "msg. " 4)
  = ["falsey"%string; " "%string].
Proof.
  assert (4 <= String.length "msg. ") as H1 by (simpl; lia).
  assert (word_at (chars "msg. ") 4 = false) as H2 by reflexivity.
  assert (4 = 0 \/ word_at (chars "msg. ") (4 - 1) = false) as H3 by (right; reflexivity).
  destruct (hint_without_a_word_looks_for_false
              ["send"%string; "falsey"%string; "move"%string] _ 4 H1 H2 H3)
    as (_ & _ & suggestion & _).
  vm_compute. reflexivity.
Defined.

(** X20.  A [$] in the word at the cursor is read as the end of the name:
    whatever is offered then, besides the blank, is a method name shorter
    than the word, so no name that continues the word is offered. *)
Theorem hint_with_a_dollar_offers_no_continuation names curLine ch :
  ch <= String.length curLine ->
  let h := dictionaryHint names curLine ch in
  "$"%char ∈ slice (chars curLine) (from h) (to h) ->
  forall item, item ∈ list_ h ->
    item = " "%string \/ (item ∈ names /\ String.length item < to h - from h).
Proof.
  intros Hch h Hd item Hitem.
  destruct (HintFacts.hint_bounds names curLine ch Hch) as (Hb & Hto).
  fold h in Hb, Hto.
  simpl in *. set (line := chars curLine) in *.
  set (e := scan_end (length line - ch) line ch) in *.
  set (s := scan_start line ch) in *.
  apply HintFacts.pad_single_elem in Hitem as [Hitem | ->]; [|by left]. right.
  rewrite (KeyFacts.sort_default_perm _) in Hitem.
  apply list_elem_of_filter in Hitem as [Hmatch Hin]. split; [done|].
  unfold pattern_text in Hmatch. destruct (Nat.eqb_spec s e) as [Heq|_].
  { rewrite Heq in Hd. unfold slice in Hd. rewrite Nat.sub_diag in Hd.
    by apply elem_of_nil in Hd. }
  apply (HintFacts.match_here_dollar _ _ Hd) in Hmatch.
  rewrite HintFacts.slice_length in Hmatch by lia.
  by rewrite JSONFacts.chars_length in Hmatch.
Qed.

Lemma hint_with_a_dollar_offers_no_continuation_witness :
  let h := dictionaryHint ["a$b"%string; "a"%string; "ab"%string] "a$" 2 in
  2 <= String.length "a$"
  /\ list_ h = ["a"%string; " "%string]
  /\ ("a$b"%string ∉ list_ h).
Proof.
  intros h.
  assert (2 <= String.length "a$") as H1 by (simpl; lia).
  assert ("$"%char ∈ slice (chars "a$") (from h) (to h)) as H2.
  { replace (slice (chars "a$") (from h) (to h)) with ["a"%char; "$"%char]
      by (vm_compute; reflexivity).
    rewrite !elem_of_cons. tauto. }
  split; [exact H1|]. split; [vm_compute; reflexivity|].
  intros Hin.
  destruct (hint_with_a_dollar_offers_no_continuation
              ["a$b"%string; "a"%string; "ab"%string] "a$" 2 H1 H2 _ Hin)
    as [Hblank|[_ Hshort]]; [discriminate Hblank|].
  vm_compute in Hshort. lia.
Defined.


(** ** The status line of the history view *)

Module StatusFacts.
Import JS Str History Terms Notions RenderFacts SessionFacts.












Section Status.

Variable sort_with : (string -> string -> Z) -> list string -> list string.










End Status.

End StatusFacts.

Import JS Str History Terms Notions.



(** ** Numerals and the id of a new tab *)

Module TabsFacts.
Import JS Str Tabs.

Local Open Scope N_scope.

Lemma small_cases d :
  d < 10 ->
  d = 0 \/ d = 1 \/ d = 2 \/ d = 3 \/ d = 4 \/ d = 5 \/ d = 6 \/ d = 7 \/ d = 8 \/ d = 9.
Proof. lia. Qed.

Lemma digit_char d :
  d < 10 ->
  digit_val (ascii_of_N (48 + d)) = d /\ is_digit (ascii_of_N (48 + d)) = true
  /\ (d <> 0 -> ascii_of_N (48 + d) <> "0"%char).
Proof.
  intros Hd. destruct (small_cases d Hd) as [-> | [-> | [-> | [-> | [-> | [-> | [-> | [-> | [-> | ->]]]]]]]]];
    (split; [reflexivity|split; [reflexivity|intros H; try done; discriminate]]).
Qed.

Lemma digits_of_value fuel n acc :
  n < 2 ^ N.of_nat fuel ->
  value_from (chars (digits_of fuel n acc)) 0 = value_from (chars acc) n.
Proof.
  revert n acc. induction fuel as [|fuel IH]; intros n acc Hn.
  - simpl in *. assert (n = 0) as -> by lia. done.
  - cbn [digits_of]. assert (n mod 10 < 10) as Hd by (apply N.mod_lt; lia).
    destruct (digit_char _ Hd) as (Hval & _).
    destruct (N.ltb_spec n 10) as [Hlt|Hge].
    + cbn [chars value_from fold_left]. rewrite Hval, N.mod_small by done.
      unfold value_from. f_equal.
    + rewrite IH.
      * cbn [chars value_from fold_left]. unfold value_from. f_equal.
        rewrite Hval. rewrite (N.div_mod n 10) at 3 by lia. lia.
      * rewrite Nat2N.inj_succ, N.pow_succ_r' in Hn.
        apply N.Div0.div_lt_upper_bound; lia.
Qed.

(** Reading a printed numeral gives the number back. *)
Lemma decimal_value_numeral n : decimal_value (numeral_of n) = n.
Proof.
  unfold decimal_value, numeral_of.
  apply (digits_of_value (S (N.to_nat (N.size n))) n "").
  rewrite Nat2N.inj_succ, N2Nat.id, N.pow_succ_r'.
  pose proof (N.size_gt n). lia.
Qed.

Lemma digits_of_digits fuel n acc :
  forallb is_digit (chars acc) = true ->
  forallb is_digit (chars (digits_of fuel n acc)) = true.
Proof.
  revert n acc. induction fuel as [|fuel IH]; intros n acc Hacc; [done|].
  cbn [digits_of]. assert (n mod 10 < 10) as Hd by (apply N.mod_lt; lia).
  destruct (digit_char _ Hd) as (_ & Hdig & _).
  destruct (n <? 10).
  - cbn [chars forallb]. by rewrite Hdig.
  - apply IH. cbn [chars forallb]. by rewrite Hdig.
Qed.

Lemma digits_of_head fuel n acc :
  n <> 0 -> n < 2 ^ N.of_nat fuel ->
  exists c rest, chars (digits_of fuel n acc) = c :: rest /\ c <> "0"%char.
Proof.
  revert n acc. induction fuel as [|fuel IH]; intros n acc Hn Hlt.
  - simpl in Hlt. lia.
  - cbn [digits_of]. assert (n mod 10 < 10) as Hd by (apply N.mod_lt; lia).
    destruct (digit_char _ Hd) as (_ & _ & Hnz).
    destruct (N.ltb_spec n 10) as [Hsmall|Hbig].
    + eexists _, _. split; [reflexivity|]. apply Hnz. rewrite N.mod_small; done.
    + apply IH.
      * intros H0. apply N.div_small_iff in H0; lia.
      * rewrite Nat2N.inj_succ, N.pow_succ_r' in Hlt.
        apply N.Div0.div_lt_upper_bound; lia.
Qed.

Lemma numeral_of_numeral n : is_numeral (numeral_of n) = true.
Proof.
  destruct (N.eq_dec n 0) as [->|Hn]; [done|].
  unfold is_numeral.
  pose proof (digits_of_digits (S (N.to_nat (N.size n))) n "" eq_refl) as Hall.
  destruct (digits_of_head (S (N.to_nat (N.size n))) n "" Hn) as (c & rest & Heq & Hc).
  { rewrite Nat2N.inj_succ, N2Nat.id, N.pow_succ_r'. pose proof (N.size_gt n). lia. }
  unfold numeral_of. rewrite Heq in Hall |- *. rewrite Hall. simpl.
  destruct (Ascii.eqb_spec c "0"%char); done.
Qed.

(** *** [Math.max] *)



Lemma max_of_ints (l : list N) m :
  fold_left max2 (map Int l) (Int m) = Int (fold_left N.max l m).
Proof. revert m. induction l as [|x l IH]; intros m; [done|]. simpl. apply IH. Qed.

Lemma fold_max_bounds (l : list N) m :
  m <= fold_left N.max l m /\ Forall (fun x => x <= fold_left N.max l m) l.
Proof.
  revert m. induction l as [|x l IH]; intros m; simpl; [by split|].
  destruct (IH (N.max m x)) as [H1 H2]. split; [lia|].
  constructor; [lia|done].
Qed.

Lemma fold_max_below (l : list N) m b :
  m < b -> Forall (fun x => x < b) l -> fold_left N.max l m < b.
Proof.
  revert m. induction l as [|x l IH]; intros m Hm Hl; simpl; [done|].
  inversion Hl; subst. apply IH; [lia|done].
Qed.

Lemma all_numbers_numerals keys :
  Forall (fun k => is_numeral k = true /\ decimal_value k < exact_below - 1) keys ->
  all_numbers keys = Some (map Int (map decimal_value keys)).
Proof.
  induction 1 as [|k keys [Hk Hv] _ IH]; [done|].
  simpl. unfold to_number at 1. rewrite Hk.
  destruct (N.ltb_spec (decimal_value k) exact_below) as [_|Hge];
    [|unfold exact_below in *; lia].
  by rewrite IH.
Qed.


End TabsFacts.

Import JS Str Tabs.

(** X22.  When the page has tabs and every tab id is a plain numeral below
    [2^53 - 1], the id line 112 gives a new tab is again a plain numeral, of
    at most [2^53 - 1]; it is greater than every id there is, and so is not
    the id of another tab. *)
Theorem new_tab_id_is_fresh keys :
  keys <> [] ->
  Forall (fun k => is_numeral k = true
                   /\ (decimal_value k < exact_below - 1)%N) keys ->
  exists id,
    new_tab_id keys = Some id
    /\ is_numeral id = true
    /\ (decimal_value id <= exact_below - 1)%N
    /\ Forall (fun k => (decimal_value k < decimal_value id)%N) keys
    /\ id ∉ keys.
Proof.
  intros Hne Hkeys. unfold new_tab_id.
  rewrite (TabsFacts.all_numbers_numerals keys Hkeys).
  destruct keys as [|k keys]; [done|]. unfold max_of. cbn [map fold_left max2].
  rewrite TabsFacts.max_of_ints. cbn [plus_one to_text].
  set (m := fold_left N.max (map decimal_value keys) (decimal_value k)).
  destruct (TabsFacts.fold_max_bounds (map decimal_value keys) (decimal_value k))
    as [Hk Hall]. fold m in Hk, Hall.
  assert (Forall (fun k0 => (decimal_value k0 < decimal_value (numeral_of (m + 1)))%N)
                 (k :: keys)) as Hbelow.
  { rewrite TabsFacts.decimal_value_numeral. constructor; [lia|].
    apply Forall_forall. intros k0 Hk0. rewrite Forall_forall in Hall.
    assert ((decimal_value k0 <= m)%N); [|lia].
    apply Hall. apply list_elem_of_fmap. by exists k0. }
  eexists. split; [reflexivity|]. split; [apply TabsFacts.numeral_of_numeral|].
  split.
  { rewrite TabsFacts.decimal_value_numeral.
    assert (m < exact_below - 1)%N; [|lia].
    apply Forall_cons in Hkeys as [[_ Hk0] Hkeys]. apply TabsFacts.fold_max_below; [done|].
    apply Forall_forall. intros x Hx. apply list_elem_of_fmap in Hx as (k0 & -> & Hk0').
    rewrite Forall_forall in Hkeys. by destruct (Hkeys k0 Hk0'). }
  split; [done|].
  intros Hin. rewrite Forall_forall in Hbelow. apply Hbelow in Hin. lia.
Qed.

Lemma new_tab_id_is_fresh_witness :
  ["3"%string; "12"%string] <> []
  /\ new_tab_id ["3"%string; "12"%string] = Some "13"%string.
Proof.
  assert (["3"%string; "12"%string] <> []) as H1 by done.
  assert (Forall (fun k => is_numeral k = true
                           /\ (decimal_value k < exact_below - 1)%N)
                 ["3"%string; "12"%string]) as H2.
  { repeat constructor. }
  destruct (new_tab_id_is_fresh _ H1 H2) as (id & _).
  split; [exact H1|]. vm_compute. reflexivity.
Defined.

